(** * email2issues: the issue reshaping and command formatting of the app

    A shallow embedding of the TypeScript sources
    - [types.ts]                       (module [Types]),
    - [components/CommandPreview.tsx]  (module [CommandPreview]),
    - [App.tsx]                        (module [App]),
    - [services/geminiService.ts]      (module [GeminiService]),
    with the JavaScript string primitives they call (module [Js]).

    JavaScript strings are sequences of UTF-16 code units.  The embedding
    keeps one [ascii] per code unit, so it covers the strings whose code
    units are below 256; on that range [trim] and [toLowerCase] below are
    the ECMAScript ones. *)

From Stdlib Require Import String Ascii List Bool Arith Lia.
Import ListNotations.
Local Open Scope string_scope.

(* ------------------------------------------------------------------ *)
(** ** JavaScript string and array primitives used by the sources *)

Module Js.

Definition dquote : ascii := "034"%char.
Definition backslash : ascii := "\"%char.
Definition backtick : ascii := "`"%char.
Definition dollar : ascii := "$"%char.
Definition ampersand : ascii := "&"%char.

(** The one-character strings that cannot be written as literals. *)
Definition DQ : string := String dquote "".
Definition LF : string := String "010"%char "".

(** ToBoolean on a string: only the empty string is falsy. *)
Definition truthy (s : string) : bool :=
  match s with
  | EmptyString => false
  | String _ _ => true
  end.

(** ToBoolean on an optional string property: undefined is falsy. *)
Definition truthyOpt (o : option string) : bool :=
  match o with
  | None => false
  | Some s => truthy s
  end.

(** WhiteSpace and LineTerminator code units below 256:
    TAB, LF, VT, FF, CR, SP and NBSP. *)
Definition isWhiteSpace (c : ascii) : bool :=
  let n := nat_of_ascii c in
  (((9 <=? n) && (n <=? 13)) || (n =? 32) || (n =? 160))%nat.

Fixpoint trimStart (s : string) : string :=
  match s with
  | EmptyString => EmptyString
  | String c r => if isWhiteSpace c then trimStart r else s
  end.

(** [trimEnd]: a white-space character is dropped when nothing but white
    space follows it. *)
Fixpoint trimEnd (s : string) : string :=
  match s with
  | EmptyString => EmptyString
  | String c r =>
      match trimEnd r with
      | EmptyString => if isWhiteSpace c then EmptyString else String c EmptyString
      | r' => String c r'
      end
  end.

Definition trim (s : string) : string := trimEnd (trimStart s).

(** Lower-casing of one code unit below 256: A-Z, and the Latin-1 capitals
    U+00C0..U+00DE except the multiplication sign U+00D7. *)
Definition toLowerChar (c : ascii) : ascii :=
  let n := nat_of_ascii c in
  if (((65 <=? n) && (n <=? 90))
      || ((192 <=? n) && (n <=? 222) && negb (n =? 215)))%nat
  then ascii_of_nat (n + 32)
  else c.

Fixpoint toLowerCase (s : string) : string :=
  match s with
  | EmptyString => EmptyString
  | String c r => String (toLowerChar c) (toLowerCase r)
  end.

(** [s.includes(sub)]: [sub] occurs at some position of [s]. *)
Fixpoint includes (s sub : string) : bool :=
  prefix sub s ||
  match s with
  | EmptyString => false
  | String _ r => includes r sub
  end.

(** The replacement-text expansion of [String.prototype.replace] for a
    pattern without capture groups: [$$] is a dollar sign, [$&] the matched
    text, every other character stands for itself (a dollar sign that ends
    the replacement text included).  The patterns that refer to the text
    around the match do not occur in the replacement texts of the sources. *)
Fixpoint getSubstitution (matched repl : string) : string :=
  match repl with
  | EmptyString => EmptyString
  | String c r =>
      if Ascii.eqb c dollar then
        match r with
        | String d r' =>
            if Ascii.eqb d dollar then String dollar (getSubstitution matched r')
            else if Ascii.eqb d ampersand then matched ++ getSubstitution matched r'
            else String c (getSubstitution matched r)
        | EmptyString => String c EmptyString
        end
      else String c (getSubstitution matched r)
  end.

(** [s.replace(/c/g, repl)] for a pattern that matches the single
    character [c]. *)
Fixpoint replaceAll (c : ascii) (repl : string) (s : string) : string :=
  match s with
  | EmptyString => EmptyString
  | String x r =>
      if Ascii.eqb x c
      then getSubstitution (String x EmptyString) repl ++ replaceAll c repl r
      else String x (replaceAll c repl r)
  end.

(** [xs.join(sep)] on an array of strings. *)
Fixpoint join (sep : string) (xs : list string) : string :=
  match xs with
  | [] => EmptyString
  | [x] => x
  | x :: rest => x ++ sep ++ join sep rest
  end.

(** [s.split(sep)] for a separator of one character: the pieces between
    the separators, at least one piece. *)
Fixpoint split (sep : ascii) (s : string) : list string :=
  match s with
  | EmptyString => [EmptyString]
  | String c r =>
      if Ascii.eqb c sep then EmptyString :: split sep r
      else
        match split sep r with
        | piece :: pieces => String c piece :: pieces
        | [] => [String c EmptyString]
        end
  end.

End Js.

(* ------------------------------------------------------------------ *)
(** ** types.ts *)

Module Types.

(** Objects of type [ParsedIssue] as they exist at run time.  The interface
    declares [id], [title], [body], [labels] and the optional
    [originalContext]; the objects built from the API response also carry
    the optional [sender] property of the response schema, which
    [processParsedIssues] reads. *)
Record ParsedIssue : Type := mkIssue {
  id : string;
  title : string;
  body : string;
  labels : list string;
  originalContext : option string;
  sender : option string
}.

Inductive ProcessingStatus : Type :=
  | IDLE
  | ANALYZING
  | COMPLETE
  | ERROR.

(** The string value of each enum member. *)
Definition statusValue (s : ProcessingStatus) : string :=
  match s with
  | IDLE => "IDLE"
  | ANALYZING => "ANALYZING"
  | COMPLETE => "COMPLETE"
  | ERROR => "ERROR"
  end.

Definition ProcessingStatus_eqb (a b : ProcessingStatus) : bool :=
  match a, b with
  | IDLE, IDLE | ANALYZING, ANALYZING | COMPLETE, COMPLETE | ERROR, ERROR => true
  | _, _ => false
  end.

Record EmailContent : Type := mkEmail {
  subject : string;
  emailBody : string
}.

(** The interface declaration itself, as data: property name, type and
    whether the property is optional. *)
Inductive TsType : Type :=
  | TString
  | TStringArray.

Record FieldDecl : Type := mkField {
  fieldName : string;
  fieldType : TsType;
  fieldOptional : bool
}.

Definition ParsedIssue_interface : list FieldDecl :=
  [ mkField "id" TString false;
    mkField "title" TString false;
    mkField "body" TString false;
    mkField "labels" TStringArray false;
    mkField "originalContext" TString true ].

Definition ProcessingStatus_members : list ProcessingStatus :=
  [IDLE; ANALYZING; COMPLETE; ERROR].

End Types.

(* ------------------------------------------------------------------ *)
(** ** components/CommandPreview.tsx *)

Module CommandPreview.
Import Js Types.

Definition generateCommand (i : ParsedIssue) : string :=
  (* Escape double quotes for shell safety *)
  let safeTitle := replaceAll dquote (String backslash DQ) (title i) in
  let safeBody :=
    replaceAll backtick "\`" (replaceAll dquote (String backslash DQ) (body i)) in
  (* Construct labels string *)
  let labelsStr := join " " (map (fun l => "--label " ++ DQ ++ l ++ DQ) (labels i)) in
  "gh issue create --title " ++ DQ ++ safeTitle ++ DQ ++
  " --body " ++ DQ ++ safeBody ++ DQ ++ " " ++ labelsStr.

Definition styleRed : string := "bg-red-100 text-red-700 border-red-200".
Definition styleBlue : string := "bg-blue-100 text-blue-700 border-blue-200".
Definition styleGray : string := "bg-gray-100 text-gray-600 border-gray-200".

Definition getLabelStyle (label : string) : string :=
  let lower := toLowerCase label in
  if includes lower "bug" then styleRed
  else if includes lower "enhancement" || includes lower "feature"
       then styleBlue
       else styleGray.

(** The labels field of the edit form: its text, and the labels read back
    from what the user types into it. *)
Definition labelsText (ls : list string) : string := join ", " ls.

Definition parseLabels (value : string) : list string :=
  filter truthy (map trim (split ","%char value)).

(** *** The component

    The [issue] property and the three pieces of local state. *)
Record Preview : Type := mkPreview {
  issue : ParsedIssue;
  copied : bool;
  isEditing : bool;
  editedIssue : ParsedIssue
}.

(** A freshly mounted component: [useState(issue)]. *)
Definition mount (i : ParsedIssue) : Preview :=
  {| issue := i; copied := false; isEditing := false; editedIssue := i |}.

Definition setEditedIssue (e : ParsedIssue) (p : Preview) : Preview :=
  {| issue := issue p; copied := copied p;
     isEditing := isEditing p; editedIssue := e |}.

Definition setIsEditing (b : bool) (p : Preview) : Preview :=
  {| issue := issue p; copied := copied p;
     isEditing := b; editedIssue := editedIssue p |}.

Definition setCopied (b : bool) (p : Preview) : Preview :=
  {| issue := issue p; copied := b;
     isEditing := isEditing p; editedIssue := editedIssue p |}.

(** What the component does to the outside: the two callbacks of its
    parent and the clipboard. *)
Inductive Effect : Type :=
  | OnUpdate (updated : ParsedIssue)
  | OnDelete (id0 : string)
  | ClipboardWrite (text : string).

Inductive PreviewEvent : Type :=
  | ClickEdit
  | ClickRemoveButton
  | ChangeTitle (value : string)
  | ChangeBody (value : string)
  | ChangeLabels (value : string)
  | ClickCancel
  | ClickSave
  | ClickCopy
  | CopiedExpired
  | IssueReplaced (i : ParsedIssue).

(** One event on the component.  The form controls exist only while
    editing and the copy button only while not editing; [IssueReplaced] is
    the parent passing another issue object, on which the effect hook resets
    the edited issue; [CopiedExpired] is the timer started by [handleCopy],
    whose clipboard write is taken to succeed. *)
Definition previewStep (p : Preview) (ev : PreviewEvent)
  : option (Preview * option Effect) :=
  let e := editedIssue p in
  match ev with
  | ClickEdit => Some (setIsEditing (negb (isEditing p)) p, None)
  | ClickRemoveButton => Some (p, Some (OnDelete (id (issue p))))
  | ChangeTitle v =>
      if isEditing p
      then Some (setEditedIssue
                   (mkIssue (id e) v (body e) (labels e)
                            (originalContext e) (sender e)) p, None)
      else None
  | ChangeBody v =>
      if isEditing p
      then Some (setEditedIssue
                   (mkIssue (id e) (title e) v (labels e)
                            (originalContext e) (sender e)) p, None)
      else None
  | ChangeLabels v =>
      if isEditing p
      then Some (setEditedIssue
                   (mkIssue (id e) (title e) (body e) (parseLabels v)
                            (originalContext e) (sender e)) p, None)
      else None
  | ClickCancel =>
      if isEditing p then Some (setIsEditing false p, None) else None
  | ClickSave =>
      (* saveEdits *)
      if isEditing p
      then Some (setIsEditing false p, Some (OnUpdate e))
      else None
  | ClickCopy =>
      (* handleCopy *)
      if isEditing p then None
      else Some (setCopied true p, Some (ClipboardWrite (generateCommand e)))
  | CopiedExpired => Some (setCopied false p, None)
  | IssueReplaced i =>
      Some ({| issue := i; copied := copied p;
               isEditing := isEditing p; editedIssue := i |}, None)
  end.

(** A sequence of events, with the effects it causes in order. *)
Fixpoint previewRun (p : Preview) (evs : list PreviewEvent)
  : option (Preview * list Effect) :=
  match evs with
  | [] => Some (p, [])
  | ev :: rest =>
      match previewStep p ev with
      | Some (p', eff) =>
          match previewRun p' rest with
          | Some (p'', effs) =>
              Some (p'', match eff with
                         | Some x => x :: effs
                         | None => effs
                         end)
          | None => None
          end
      | None => None
      end
  end.

(** The command shown in the code block of the component. *)
Definition shownCommand (p : Preview) : string :=
  generateCommand (editedIssue p).

(** The block with the original context of the issue is rendered. *)
Definition contextBlockShown (p : Preview) : bool :=
  truthyOpt (originalContext (issue p)).

End CommandPreview.

(* ------------------------------------------------------------------ *)
(** ** App.tsx *)

Module App.
Import Js Types.

(** *** Reshaping of the issues returned by the API *)

(** The callback that [processParsedIssues] maps over the raw issues. *)
Definition processIssue (issue : ParsedIssue) : ParsedIssue :=
  (* 1. Add Title Prefix *)
  let lowerLabels := map toLowerCase (labels issue) in
  let prefix :=
    if existsb (fun l => includes l "bug") lowerLabels then "[Bug] "
    else if existsb (fun l => includes l "feature" || includes l "enhancement")
                    lowerLabels
         then "[Feature] "
         else "" in
  let title' := trim (prefix ++ title issue) in
  (* 2. Merge Original Context into Body *)
  let body' :=
    match originalContext issue with
    | Some ctx =>
        if truthy ctx then
          let senderPrefix :=
            match sender issue with
            | Some s =>
                if truthy s && negb (s =? "Unknown")
                then "From " ++ s ++ ":" ++ LF
                else ""
            | None => ""
            end in
          (senderPrefix ++ body issue) ++
          ((((LF ++ LF ++ "---" ++ LF ++ LF) ++
             ("**Original Context:**" ++ LF)) ++
            LF) ++
           "> ") ++ ctx
        else body issue
    | None => body issue
    end in
  {| id := id issue;
     title := title';
     body := body';
     labels := labels issue;
     originalContext := None;   (* cleared so it is not merged again *)
     sender := sender issue |}.

Definition processParsedIssues (rawIssues : list ParsedIssue) : list ParsedIssue :=
  map processIssue rawIssues.

(** *** Shell escaping and the copy-all command *)

Definition escapeForShell (str : string) : string :=
  if negb (truthy str) then ""
  else
    replaceAll dollar "\$"
      (replaceAll backtick "\`"
         (replaceAll dquote (String backslash DQ)
            (replaceAll backslash "\\" str))).

(** The command built for one issue inside [copyAllCommands]. *)
Definition issueCommand (issue : ParsedIssue) : string :=
  let safeTitle := escapeForShell (title issue) in
  let safeBody := escapeForShell (body issue) in
  let labelsStr :=
    join " " (map (fun l => "--label " ++ DQ ++ l ++ DQ) (labels issue)) in
  "gh issue create --title " ++ DQ ++ safeTitle ++ DQ ++
  " --body " ++ DQ ++ safeBody ++ DQ ++ " " ++ labelsStr.

(** [copyAllCommands]: the text written to the clipboard. *)
Definition copyAllCommands (issues : list ParsedIssue) : string :=
  join LF (map issueCommand issues).

(** *** Component state *)

Record State : Type := mkState {
  emailContent : EmailContent;
  issues : list ParsedIssue;
  status : ProcessingStatus;
  errorMsg : option string
}.

Definition initialState : State :=
  {| emailContent := mkEmail "" "";
     issues := [];
     status := IDLE;
     errorMsg := None |}.

Definition setEmailContent (e : EmailContent) (st : State) : State :=
  {| emailContent := e; issues := issues st;
     status := status st; errorMsg := errorMsg st |}.

Definition setIssues (l : list ParsedIssue) (st : State) : State :=
  {| emailContent := emailContent st; issues := l;
     status := status st; errorMsg := errorMsg st |}.

Definition setStatus (s : ProcessingStatus) (st : State) : State :=
  {| emailContent := emailContent st; issues := issues st;
     status := s; errorMsg := errorMsg st |}.

Definition setErrorMsg (m : option string) (st : State) : State :=
  {| emailContent := emailContent st; issues := issues st;
     status := status st; errorMsg := m |}.

(** *** handleGenerate

    The handler is asynchronous.  Its first part runs up to the [await]
    and either returns at once or issues one call of
    [geminiService.parseEmailToIssues]; its second part runs when that call
    settles, on the state the component has by then. *)

Definition noRequestsFound : string :=
  "No actionable requests found in the email content.".

Definition parseFailed : string :=
  "Failed to parse email. Please check your API key and try again.".

(** A call of [parseEmailToIssues] with its two arguments. *)
Definition Request : Type := (string * string)%type.

(** How a call of [parseEmailToIssues] settles. *)
Inductive ApiOutcome : Type :=
  | Resolved (rawIssues : list ParsedIssue)
  | Rejected.

Definition handleGenerate_begin (st : State) : State * option Request :=
  if negb (truthy (trim (subject (emailContent st))))
     && negb (truthy (trim (emailBody (emailContent st))))
  then (st, None)
  else
    (setIssues [] (setErrorMsg None (setStatus ANALYZING st)),
     Some (subject (emailContent st), emailBody (emailContent st))).

Definition handleGenerate_settle (o : ApiOutcome) (st : State) : State :=
  match o with
  | Resolved rawIssues =>
      if (List.length rawIssues =? 0)%nat
      then setStatus IDLE (setErrorMsg (Some noRequestsFound) st)
      else setStatus COMPLETE (setIssues (processParsedIssues rawIssues) st)
  | Rejected =>
      setStatus ERROR (setErrorMsg (Some parseFailed) st)
  end.

(** One whole run of [handleGenerate] against an API that settles the call
    as [api subject body], with no other event in between. *)
Definition handleGenerate (api : string -> string -> ApiOutcome) (st : State) : State :=
  match handleGenerate_begin st with
  | (st', Some (s, b)) => handleGenerate_settle (api s b) st'
  | (st', None) => st'
  end.

(** *** The other handlers *)

Definition handleUpdateIssue (updated : ParsedIssue) (st : State) : State :=
  setIssues
    (map (fun i => if id i =? id updated then updated else i) (issues st)) st.

Definition handleDeleteIssue (id0 : string) (st : State) : State :=
  let st' := setIssues (filter (fun i => negb (id i =? id0)) (issues st)) st in
  if (List.length (issues st) <=? 1)%nat then setStatus IDLE st' else st'.

(** *** What the component renders *)

(** The [disabled] attribute of the generate button. *)
Definition generateDisabled (st : State) : bool :=
  ProcessingStatus_eqb (status st) ANALYZING
  || (negb (truthy (subject (emailContent st)))
      && negb (truthy (emailBody (emailContent st)))).

(** The empty-state panel. *)
Definition emptyStateShown (st : State) : bool :=
  ProcessingStatus_eqb (status st) IDLE
  && negb (0 <? List.length (issues st))%nat.

(** The error panel, the only place where [errorMsg] is rendered. *)
Definition errorPanelShown (st : State) : bool :=
  ProcessingStatus_eqb (status st) ERROR.

(** The results panel, with the clear and copy-all buttons and one
    [CommandPreview] per issue. *)
Definition resultsShown (st : State) : bool :=
  (0 <? List.length (issues st))%nat.

(** The error message the user sees, if any. *)
Definition displayedError (st : State) : option string :=
  if errorPanelShown st then errorMsg st else None.

(** *** The component as a transition system *)

(** What can happen to the mounted component: a user action on a control
    that is rendered and enabled, or the settling of a call in flight. *)
Inductive Event : Type :=
  | EditSubject (s : string)
  | EditBody (s : string)
  | ClickGenerate
  | ClickTryAgain
  | ClickClear
  | ClickCopyAll
  | SaveEdits (updated : ParsedIssue)
  | ClickRemove (id0 : string)
  | Settle (o : ApiOutcome).

(** The component state together with the calls of [parseEmailToIssues]
    that have been issued and have not settled yet. *)
Record System : Type := mkSystem {
  ui : State;
  inflight : list Request
}.

Definition initialSystem : System :=
  {| ui := initialState; inflight := [] |}.

(** [step sys ev] is [None] when the control of [ev] is not rendered or is
    disabled in [sys], or when no call is in flight for [Settle]. *)
Definition step (sys : System) (ev : Event) : option System :=
  let st := ui sys in
  match ev with
  | EditSubject s =>
      Some (mkSystem
              (setEmailContent (mkEmail s (emailBody (emailContent st))) st)
              (inflight sys))
  | EditBody s =>
      Some (mkSystem
              (setEmailContent (mkEmail (subject (emailContent st)) s) st)
              (inflight sys))
  | ClickGenerate =>
      if generateDisabled st then None
      else
        match handleGenerate_begin st with
        | (st', Some r) => Some (mkSystem st' (inflight sys ++ [r]))
        | (st', None) => Some (mkSystem st' (inflight sys))
        end
  | ClickTryAgain =>
      if errorPanelShown st
      then Some (mkSystem (setStatus IDLE st) (inflight sys))
      else None
  | ClickClear =>
      if resultsShown st
      then Some (mkSystem (setIssues [] st) (inflight sys))
      else None
  | ClickCopyAll =>
      if resultsShown st then Some sys else None
  | SaveEdits updated =>
      if resultsShown st
      then Some (mkSystem (handleUpdateIssue updated st) (inflight sys))
      else None
  | ClickRemove id0 =>
      if existsb (fun i => id i =? id0) (issues st)
      then Some (mkSystem (handleDeleteIssue id0 st) (inflight sys))
      else None
  | Settle o =>
      match inflight sys with
      | [] => None
      | _ :: rest => Some (mkSystem (handleGenerate_settle o st) rest)
      end
  end.

(** Execution of a sequence of events from a system state. *)
Fixpoint run (sys : System) (evs : list Event) : option System :=
  match evs with
  | [] => Some sys
  | ev :: rest =>
      match step sys ev with
      | Some sys' => run sys' rest
      | None => None
      end
  end.

Definition reachable (sys : System) : Prop :=
  exists evs, run initialSystem evs = Some sys.

(** An event that issues a call of [parseEmailToIssues]. *)
Definition startsRequest (sys : System) (ev : Event) : bool :=
  match step sys ev with
  | Some sys' => (List.length (inflight sys) <? List.length (inflight sys'))%nat
  | None => false
  end.

End App.

(* ------------------------------------------------------------------ *)
(** ** services/geminiService.ts *)

Module GeminiService.
Import Js Types App.

(** How the call of [ai.models.generateContent] ends: it throws, or it
    returns a response whose [text] may be undefined. *)
Inductive Response : Type :=
  | Throws
  | Returns (text : option string).

(** The user part of the request. *)
Definition promptText (subject body : string) : string :=
  "Please parse the following email into GitHub Issues:" ++ LF ++ LF ++
  "Subject: " ++ subject ++ LF ++ LF ++ "Body:" ++ LF ++ body.

(** [{...issue, id: crypto.randomUUID()}] *)
Definition withId (newId : string) (i : ParsedIssue) : ParsedIssue :=
  {| id := newId; title := title i; body := body i; labels := labels i;
     originalContext := originalContext i; sender := sender i |}.

Section Service.

(** [process.env.API_KEY]. *)
Variable apiKey : option string.

(** The service behind [generateContent], by the text of the request; the
    system instruction, the schema and the temperature are constants. *)
Variable generateContent : string -> Response.

(** [JSON.parse] of a response text: the array of issue objects with the
    properties of the response schema, or [None] when parsing or the mapping
    over the result throws.  A text that parses to anything else (an issue
    without a labels array, say) has no value here: the model covers the
    responses that follow the response schema. *)
Variable parseJson : string -> option (list ParsedIssue).

(** The UUIDs that [crypto.randomUUID] returns, in the order of the calls. *)
Variable randomUUID : nat -> string.

(** The mapping that gives every raw issue a fresh id; [k] UUIDs have been
    drawn before. *)
Fixpoint assignIds (k : nat) (rawIssues : list ParsedIssue) : list ParsedIssue :=
  match rawIssues with
  | [] => []
  | i :: rest => withId (randomUUID k) i :: assignIds (S k) rest
  end.

Definition parseEmailToIssues (drawn : nat) (subject body : string) : ApiOutcome :=
  if negb (truthyOpt apiKey) then Rejected
  else
    match generateContent (promptText subject body) with
    | Throws => Rejected
    | Returns text =>
        match text with
        | Some t =>
            if negb (truthy t) then Resolved []
            else
              match parseJson t with
              | Some rawIssues => Resolved (assignIds drawn rawIssues)
              | None => Rejected
              end
        | None => Resolved []
        end
    end.

End Service.

End GeminiService.

(* ------------------------------------------------------------------ *)
(** ** The properties in the words of the specification *)

Module Spec.
Import Js Types.

(** Character-wise image of a string. *)
Fixpoint charwise (f : ascii -> string) (s : string) : string :=
  match s with
  | EmptyString => EmptyString
  | String c r => f c ++ charwise f r
  end.

(** The escaping map: a backslash before each backslash, double quote,
    backtick and dollar sign; every other character stands for itself. *)
Definition escapeChar (c : ascii) : string :=
  if Ascii.eqb c backslash then String backslash (String backslash "")
  else if Ascii.eqb c dquote then String backslash (String dquote "")
  else if Ascii.eqb c backtick then String backslash (String backtick "")
  else if Ascii.eqb c dollar then String backslash (String dollar "")
  else String c "".

Definition escaped (s : string) : string := charwise escapeChar s.

(** The characters the map puts a backslash before. *)
Definition isShellSpecial (c : ascii) : bool :=
  Ascii.eqb c backslash || Ascii.eqb c dquote
  || Ascii.eqb c backtick || Ascii.eqb c dollar.

(** What one global replacement of the character [c] does to a character. *)
Definition replaceChar (c : ascii) (repl : string) (x : ascii) : string :=
  if Ascii.eqb x c then getSubstitution (String x "") repl else String x "".

(** The command form: the fixed head with the two quoted texts, then the
    label flags; the first flag follows the head directly and every further
    flag follows a single space. *)
Definition flag (l : string) : string :=
  "--label " ++ DQ ++ l ++ DQ.

Fixpoint moreFlags (ls : list string) : string :=
  match ls with
  | [] => ""
  | l :: rest => " " ++ flag l ++ moreFlags rest
  end.

Definition flags (ls : list string) : string :=
  match ls with
  | [] => ""
  | l :: rest => flag l ++ moreFlags rest
  end.

Definition commandForm (t b : string) (ls : list string) : string :=
  "gh issue create --title " ++ DQ ++ t ++ DQ ++
  " --body " ++ DQ ++ b ++ DQ ++ " " ++ flags ls.

(** The command in which title, body and every label are escaped. *)
Definition fullyEscapedCommand (i : ParsedIssue) : string :=
  commandForm (escaped (title i)) (escaped (body i)) (map escaped (labels i)).

(** Containment of a word in a label without regard to case: some
    substring of the label equals the word up to letter case. *)
Definition equalIgnoringCase (a b : string) : Prop :=
  toLowerCase a = toLowerCase b.

Definition containsIgnoringCase (s w : string) : Prop :=
  exists pre mid post, s = pre ++ mid ++ post /\ equalIgnoringCase mid w.

Definition someLabelContains (ls : list string) (w : string) : Prop :=
  exists l, In l ls /\ containsIgnoringCase l w.

(** A string of white space only. *)
Fixpoint allWhiteSpace (s : string) : bool :=
  match s with
  | EmptyString => true
  | String c r => isWhiteSpace c && allWhiteSpace r
  end.

(** The block appended for the original context. *)
Definition contextSeparator : string :=
  LF ++ LF ++ "---" ++ LF ++ LF ++ "**Original Context:**" ++ LF ++ LF ++ "> ".

Definition fromLine (s : string) : string :=
  "From " ++ s ++ ":" ++ LF.

(** The sender line: present when the sender is given (defined and not
    empty) and is not the string Unknown. *)
Definition senderPrefix (o : option string) : string :=
  match o with
  | Some s => if (s =? "") || (s =? "Unknown") then "" else fromLine s
  | None => ""
  end.

(** An original context is given when the property is defined and not
    empty. *)
Definition contextGiven (o : option string) : Prop :=
  exists ctx, o = Some ctx /\ ctx <> "".

(** The properties of the issue record with their types: the four
    required ones and the optional original context; and the optional
    sender. *)
Definition recordFields : list FieldDecl :=
  [ mkField "id" TString false;
    mkField "title" TString false;
    mkField "body" TString false;
    mkField "labels" TStringArray false;
    mkField "originalContext" TString true ].

Definition senderField : FieldDecl := mkField "sender" TString true.

(** The property names the specification lists for the issue record. *)
Definition listedFields : list string :=
  ["title"; "body"; "labels"; "originalContext"; "sender"].

(** Subject and body are both empty after trimming. *)
Definition blankInput (st : App.State) : Prop :=
  trim (subject (App.emailContent st)) = ""
  /\ trim (emailBody (App.emailContent st)) = "".

(** At most one call in flight, and one exactly while the status is
    ANALYZING, during which no issue is listed. *)
Definition singleRequest (sys : App.System) : Prop :=
  match App.status (App.ui sys) with
  | ANALYZING =>
      App.issues (App.ui sys) = [] /\ List.length (App.inflight sys) = 1
  | _ => App.inflight sys = []
  end.

(** *** Further notions used to state properties of the code *)

(** How a POSIX shell reads the text between two double quotes when no
    expansion takes place: a backslash before a backslash, double quote,
    backtick or dollar sign stands for that character, a backslash before a
    line feed continues the line, any other backslash is kept; a bare
    double quote, backtick or dollar sign would end the text or start an
    expansion, and there is no reading. *)
Fixpoint shellRead (s : string) : option string :=
  match s with
  | EmptyString => Some EmptyString
  | String c r =>
      if Ascii.eqb c backslash then
        match r with
        | String d r' =>
            if isShellSpecial d then option_map (String d) (shellRead r')
            else if Ascii.eqb d "010"%char then shellRead r'
            else option_map (String c) (shellRead r)
        | EmptyString => Some (String c EmptyString)
        end
      else if isShellSpecial c then None
      else option_map (String c) (shellRead r)
  end.

(** The number of characters of a string that the escaping map changes. *)
Fixpoint countSpecial (s : string) : nat :=
  match s with
  | EmptyString => 0
  | String c r => (if isShellSpecial c then 1 else 0) + countSpecial r
  end.

(** The character [c] occurs in [s]. *)
Fixpoint occurs (c : ascii) (s : string) : bool :=
  match s with
  | EmptyString => false
  | String x r => Ascii.eqb x c || occurs c r
  end.

(** A label as the edit form can hold it: not empty, no white space around
    it, no comma in it. *)
Definition wellFormedLabel (l : string) : bool :=
  truthy l && (trim l =? l) && negb (occurs ","%char l).

(** The colour in which the component shows a label. *)
Definition shownRed (l : string) : bool :=
  CommandPreview.getLabelStyle l =? CommandPreview.styleRed.

Definition shownBlue (l : string) : bool :=
  CommandPreview.getLabelStyle l =? CommandPreview.styleBlue.

(** The number of panels rendered on the output side. *)
Definition panelsShown (st : App.State) : nat :=
  (if App.emptyStateShown st then 1 else 0)
  + (if App.errorPanelShown st then 1 else 0)
  + (if App.resultsShown st then 1 else 0).

(** Issues are listed only in status COMPLETE, and the status ERROR goes
    with the message of the failed call. *)
Definition listedWhenComplete (sys : App.System) : Prop :=
  singleRequest sys
  /\ (App.issues (App.ui sys) <> [] -> App.status (App.ui sys) = COMPLETE)
  /\ (App.status (App.ui sys) = ERROR ->
      App.errorMsg (App.ui sys) = Some App.parseFailed).

(** The edited issue of a component differs from its issue in title, body
    and labels at most. *)
Definition sameIdentity (e i : ParsedIssue) : Prop :=
  id e = id i /\ originalContext e = originalContext i /\ sender e = sender i.

(** An effect of a component refers to the issue the component shows. *)
Definition effectFor (i : ParsedIssue) (x : CommandPreview.Effect) : Prop :=
  match x with
  | CommandPreview.OnUpdate u => sameIdentity u i
  | CommandPreview.OnDelete id0 => id0 = id i
  | CommandPreview.ClipboardWrite _ => True
  end.

(** [w] appended to the last piece of a list of pieces. *)
Fixpoint appendLast (w : string) (pieces : list string) : list string :=
  match pieces with
  | [] => []
  | [x] => [x ++ w]
  | x :: rest => x :: appendLast w rest
  end.

End Spec.

(* ------------------------------------------------------------------ *)
(** ** Concrete inputs *)

Module Samples.
Import Js Types App.

(** An issue whose only label holds a dollar sign. *)
Definition dollarLabelIssue : ParsedIssue :=
  mkIssue "id-1" "Fix login" "Steps" ["a$b"] None None.

(** An issue whose title holds a dollar sign. *)
Definition dollarTitleIssue : ParsedIssue :=
  mkIssue "id-2" "Unset $HOME" "Steps" ["bug"] None None.

(** Issues as the API returns them. *)
Definition bugIssue : ParsedIssue :=
  mkIssue "id-3" "Crash on save" "The editor crashes." ["Bug"; "question"]
    (Some "it crashes when I save") (Some "Alice").

Definition featureIssue : ParsedIssue :=
  mkIssue "id-4" "Larger logo" "Make the logo larger." ["Enhancement"]
    (Some "logo was larger") (Some "Unknown").

Definition plainIssue : ParsedIssue :=
  mkIssue "id-5" " Update the docs " "Docs are stale." ["documentation"]
    None None.

(** A bug issue with a blank title and an empty sender. *)
Definition blankIssue : ParsedIssue :=
  mkIssue "id-6" " " "Body" ["bug"] (Some "quote") (Some "").

Definition rawIssues : list ParsedIssue :=
  [bugIssue; featureIssue; plainIssue; blankIssue].

(** Component states and API behaviours. *)
Definition filledState : State :=
  mkState (mkEmail "Feedback" "Please fix the login bug") [] IDLE None.

(** Only white space typed into the form, after a failed run. *)
Definition whitespaceState : State :=
  mkState (mkEmail "  " LF) [] ERROR (Some parseFailed).

Definition apiEmpty (subject body : string) : ApiOutcome := Resolved [].

Definition apiFails (subject body : string) : ApiOutcome := Rejected.

Definition apiAnswers (subject body : string) : ApiOutcome := Resolved rawIssues.

(** The system after the user has typed a subject and clicked the button. *)
Definition analyzingSystem : System :=
  mkSystem (mkState (mkEmail "Feedback" "") [] ANALYZING None)
           [("Feedback", "")].

(** A component in edit mode on the first sample. *)
Definition editingPreview : CommandPreview.Preview :=
  CommandPreview.mkPreview bugIssue false true bugIssue.

(** The first sample with its title changed in the edit form. *)
Definition crashIssue : ParsedIssue :=
  mkIssue "id-3" "Crash" "The editor crashes." ["Bug"; "question"]
    (Some "it crashes when I save") (Some "Alice").

Definition crashPreview : CommandPreview.Preview :=
  CommandPreview.mkPreview bugIssue false true crashIssue.

(** The component after a run that returned the sample issues. *)
Definition listedState : State :=
  mkState (mkEmail "Feedback" "") (processParsedIssues rawIssues) COMPLETE None.

Definition listedSystem : System := mkSystem listedState [].

(** The same with one issue left. *)
Definition lastIssueSystem : System :=
  mkSystem (mkState (mkEmail "Feedback" "") [processIssue bugIssue] COMPLETE None) [].

(** A service for the samples: distinct ids, a response text and its
    parsed form. *)
Fixpoint sampleUUID (k : nat) : string :=
  match k with
  | 0 => "u"
  | S k' => String "x"%char (sampleUUID k')
  end.

Definition sampleService (request : string) : GeminiService.Response :=
  GeminiService.Returns (Some "[...]").

Definition sampleParse (text : string) : option (list ParsedIssue) :=
  if text =? "[...]" then Some rawIssues else None.

End Samples.

(* ================================================================== *)
(** * Theorems *)

Import Js Types App Spec Samples.

(** ** Strings *)

Section StringFacts.

Lemma append_nil_r (s : string) : s ++ "" = s.
Proof. induction s as [|c s IH]; simpl; [reflexivity | now rewrite IH]. Qed.

Lemma append_assoc (a b c : string) : (a ++ b) ++ c = a ++ (b ++ c).
Proof. induction a as [|x a IH]; simpl; [reflexivity | now rewrite IH]. Qed.

Lemma charwise_app (f : ascii -> string) (a b : string) :
  charwise f (a ++ b) = charwise f a ++ charwise f b.
Proof.
  induction a as [|x a IH]; simpl; [reflexivity|].
  now rewrite IH, append_assoc.
Qed.

Lemma charwise_ext (f g : ascii -> string) (s : string) :
  (forall c, f c = g c) -> charwise f s = charwise g s.
Proof.
  intros E. induction s as [|x s IH]; simpl; [reflexivity|].
  now rewrite E, IH.
Qed.

(** Mapping character-wise twice is mapping once with the composed map. *)
Lemma charwise_charwise (f g : ascii -> string) (s : string) :
  charwise f (charwise g s) = charwise (fun c => charwise f (g c)) s.
Proof.
  induction s as [|x s IH]; simpl; [reflexivity|].
  now rewrite charwise_app, IH.
Qed.

(** A global single-character replacement is a character-wise map. *)
Lemma replaceAll_charwise (c : ascii) (repl s : string) :
  replaceAll c repl s = charwise (replaceChar c repl) s.
Proof.
  induction s as [|x s IH]; simpl; [reflexivity|].
  unfold replaceChar at 1. rewrite IH.
  destruct (Ascii.eqb x c); reflexivity.
Qed.

End StringFacts.

(** ** Trimming *)

Section Trimming.

Lemma trimEnd_blank_iff (s : string) :
  trimEnd s = "" <-> allWhiteSpace s = true.
Proof.
  induction s as [|c s IH]; simpl; [tauto|].
  destruct (trimEnd s) eqn:E.
  - destruct (isWhiteSpace c); simpl.
    + rewrite <- IH. tauto.
    + split; discriminate.
  - rewrite andb_true_iff, <- IH. split; [discriminate | intros [_ H]; discriminate].
Qed.

Lemma trimStart_blank_iff (s : string) :
  trimStart s = "" <-> allWhiteSpace s = true.
Proof.
  induction s as [|c s IH]; simpl; [tauto|].
  destruct (isWhiteSpace c); simpl; [exact IH | split; discriminate].
Qed.

Lemma trimStart_allWhiteSpace (s : string) :
  allWhiteSpace (trimStart s) = true -> allWhiteSpace s = true.
Proof.
  induction s as [|c s IH]; simpl; [tauto|].
  destruct (isWhiteSpace c) eqn:E; simpl; [exact IH|].
  rewrite E. discriminate.
Qed.

(** [trim] gives the empty string exactly on strings of white space. *)
Lemma trim_blank_iff (s : string) :
  trim s = "" <-> allWhiteSpace s = true.
Proof.
  unfold trim. rewrite trimEnd_blank_iff. split.
  - apply trimStart_allWhiteSpace.
  - intros H. apply trimStart_blank_iff in H. now rewrite H.
Qed.

Lemma trimEnd_app_blank (a b : string) :
  trimEnd b = "" -> trimEnd (a ++ b) = trimEnd a.
Proof.
  intros Hb. induction a as [|x a IH]; simpl; [exact Hb | now rewrite IH].
Qed.

Lemma trimEnd_app_filled (a b : string) :
  trimEnd b <> "" -> trimEnd (a ++ b) = a ++ trimEnd b.
Proof.
  intros Hb. induction a as [|x a IH]; simpl; [reflexivity|].
  rewrite IH. destruct (a ++ trimEnd b) eqn:E; [|reflexivity].
  destruct a; simpl in E; [contradiction | discriminate].
Qed.

(** The title written for a prefix [p] that has no white space in front:
    the prefix stays whole when the raw title is not blank, and loses its
    last space when it is. *)
Lemma trim_prefixed (c : ascii) (p t : string) :
  isWhiteSpace c = false ->
  trim (String c p ++ t) =
  if allWhiteSpace t then trimEnd (String c p) else String c p ++ trimEnd t.
Proof.
  intros Hc. unfold trim. cbn [append trimStart]. rewrite Hc.
  change (String c (p ++ t)) with (String c p ++ t).
  destruct (allWhiteSpace t) eqn:Ht.
  - apply trimEnd_app_blank. now apply trimEnd_blank_iff.
  - apply trimEnd_app_filled. intros E. apply trimEnd_blank_iff in E. congruence.
Qed.

Lemma trim_bug_prefixed (t : string) :
  trim ("[Bug] " ++ t) =
  if allWhiteSpace t then "[Bug]" else "[Bug] " ++ trimEnd t.
Proof. now rewrite trim_prefixed. Qed.

Lemma trim_feature_prefixed (t : string) :
  trim ("[Feature] " ++ t) =
  if allWhiteSpace t then "[Feature]" else "[Feature] " ++ trimEnd t.
Proof. now rewrite trim_prefixed. Qed.

End Trimming.

(** ** escapeForShell *)

Section Escaping.

(** The four replacements of [escapeForShell], composed, on one character:
    the backslash written by a later replacement is not seen by the first. *)
Lemma escape_steps_char (c : ascii) :
  charwise
    (fun c1 =>
       charwise
         (fun c2 =>
            charwise (replaceChar dollar "\$") (replaceChar backtick "\`" c2))
         (replaceChar dquote (String backslash DQ) c1))
    (replaceChar backslash "\\" c)
  = escapeChar c.
Proof.
  destruct c as [[] [] [] [] [] [] [] []]; reflexivity.
Qed.

Lemma escape_steps (s : string) :
  replaceAll dollar "\$"
    (replaceAll backtick "\`"
       (replaceAll dquote (String backslash DQ)
          (replaceAll backslash "\\" s)))
  = escaped s.
Proof.
  rewrite !replaceAll_charwise, !charwise_charwise.
  apply charwise_ext, escape_steps_char.
Qed.

Lemma escapeForShell_escaped (s : string) : escapeForShell s = escaped s.
Proof.
  unfold escapeForShell. destruct s as [|c s]; [reflexivity|].
  cbn [truthy negb]. apply escape_steps.
Qed.

Lemma escapeChar_cases (c : ascii) :
  escapeChar c =
  if isShellSpecial c then String backslash (String c "") else String c "".
Proof.
  destruct c as [[] [] [] [] [] [] [] []]; reflexivity.
Qed.

(** C8: [escapeForShell] is the character-wise image of its argument under
    the escaping map, whatever the argument: a backslash, double quote,
    backtick or dollar sign becomes a backslash followed by that character,
    every other character is kept, and each character of the argument is
    mapped once; the empty string gives the empty string. *)
Theorem escapeForShell_charwise :
  (forall s : string, escapeForShell s = charwise escapeChar s)
  /\ (forall (c : ascii) (s : string),
        escapeForShell (String c s) =
        (if isShellSpecial c then String backslash (String c "")
         else String c "") ++ escapeForShell s)
  /\ escapeForShell "" = "".
Proof.
  split; [exact escapeForShell_escaped|].
  split; [|reflexivity].
  intros c s. rewrite !escapeForShell_escaped, <- escapeChar_cases.
  reflexivity.
Qed.

End Escaping.

(** ** The generated commands *)

Section Commands.

Lemma join_more_flags (l : string) (ls : list string) :
  join " " (map flag (l :: ls)) = flag l ++ moreFlags ls.
Proof.
  revert l. induction ls as [|l' ls IH]; intros l.
  - simpl. now rewrite append_nil_r.
  - change (join " " (map flag (l :: l' :: ls)))
      with (flag l ++ " " ++ join " " (map flag (l' :: ls))).
    rewrite IH. reflexivity.
Qed.

Lemma join_flags (ls : list string) : join " " (map flag ls) = flags ls.
Proof.
  destruct ls as [|l ls]; [reflexivity | apply join_more_flags].
Qed.

Lemma generateCommand_form (i : ParsedIssue) :
  CommandPreview.generateCommand i =
  commandForm
    (replaceAll dquote (String backslash DQ) (title i))
    (replaceAll backtick "\`"
       (replaceAll dquote (String backslash DQ) (body i)))
    (labels i).
Proof.
  unfold CommandPreview.generateCommand, commandForm.
  now rewrite <- join_flags.
Qed.

Lemma issueCommand_form (i : ParsedIssue) :
  issueCommand i =
  commandForm (escapeForShell (title i)) (escapeForShell (body i)) (labels i).
Proof.
  unfold issueCommand, commandForm.
  now rewrite <- join_flags.
Qed.

(** The shape of the commands, with the texts each path puts between the
    quotes: the fixed head, the two quoted texts, then one
    [--label <q>L<q>] per label L of the issue (with <q> the double quote),
    in the order of the label list and separated by single spaces; the
    lines of the copy-all text are joined by line feeds. *)
Lemma command_has_form :
  (forall i : ParsedIssue,
     CommandPreview.generateCommand i =
     commandForm
       (replaceAll dquote (String backslash DQ) (title i))
       (replaceAll backtick "\`"
          (replaceAll dquote (String backslash DQ) (body i)))
       (labels i))
  /\ (forall i : ParsedIssue,
        issueCommand i =
        commandForm (escapeForShell (title i)) (escapeForShell (body i))
          (labels i))
  /\ (forall l : list ParsedIssue,
        copyAllCommands l =
        join LF
          (map (fun i => commandForm (escapeForShell (title i))
                           (escapeForShell (body i)) (labels i)) l)).
Proof.
  split; [exact generateCommand_form|].
  split; [exact issueCommand_form|].
  intros l. unfold copyAllCommands. f_equal.
  apply map_ext, issueCommand_form.
Qed.

(** C1, as stated, fails: the copy-all text for an issue with the label
    [a$b] embeds the label as it is, with no backslash before the dollar
    sign. *)
Lemma label_not_escaped :
  copyAllCommands [dollarLabelIssue] <> fullyEscapedCommand dollarLabelIssue
  /\ copyAllCommands [dollarLabelIssue] =
     commandForm "Fix login" "Steps" ["a$b"].
Proof.
  split; [|reflexivity].
  vm_compute. discriminate.
Qed.

(** The preview command escapes less than the copy-all text: a dollar sign
    in the title is embedded as it is. *)
Example preview_keeps_dollar :
  CommandPreview.generateCommand dollarTitleIssue =
    commandForm "Unset $HOME" "Steps" ["bug"]
  /\ copyAllCommands [dollarTitleIssue] =
    commandForm "Unset \$HOME" "Steps" ["bug"].
Proof. split; reflexivity. Qed.

(** C5 at a title with a dollar sign: every line of the copy-all text has
    the form with the escaped title and the escaped body between the quotes,
    but the preview command of the issue titled [Unset $HOME] puts the title
    between the quotes as it is, so it is not of the form with the escaped
    title; the copy-all line of the same issue is. *)
Theorem preview_command_not_escaped :
  CommandPreview.generateCommand dollarTitleIssue
    = commandForm "Unset $HOME" "Steps" ["bug"]
  /\ CommandPreview.generateCommand dollarTitleIssue
     <> commandForm (escaped (title dollarTitleIssue))
          (escaped (body dollarTitleIssue)) (labels dollarTitleIssue)
  /\ issueCommand dollarTitleIssue
     = commandForm (escaped (title dollarTitleIssue))
         (escaped (body dollarTitleIssue)) (labels dollarTitleIssue)
  /\ escaped (title dollarTitleIssue) = "Unset \$HOME"
  /\ (forall i : ParsedIssue,
        issueCommand i =
        commandForm (escaped (title i)) (escaped (body i)) (labels i)).
Proof.
  split; [reflexivity|]. split; [vm_compute; discriminate|].
  split; [reflexivity|]. split; [reflexivity|].
  intros i. now rewrite issueCommand_form, !escapeForShell_escaped.
Qed.

(** C1, amended: in the copy-all text the title and the body of every
    issue are embedded with a backslash before each backslash, double quote,
    backtick and dollar sign; every label is embedded as it is, in the
    copy-all text and in the preview command. *)
Theorem copyAll_escapes_title_and_body :
  (forall i : ParsedIssue,
     issueCommand i =
     commandForm (escaped (title i)) (escaped (body i)) (labels i))
  /\ (forall l : list ParsedIssue,
        copyAllCommands l =
        join LF
          (map (fun i => commandForm (escaped (title i)) (escaped (body i))
                           (labels i)) l))
  /\ (forall i : ParsedIssue,
        exists t b, CommandPreview.generateCommand i = commandForm t b (labels i)).
Proof.
  assert (E : forall i, issueCommand i =
     commandForm (escaped (title i)) (escaped (body i)) (labels i)).
  { intros i. now rewrite issueCommand_form, !escapeForShell_escaped. }
  split; [exact E|]. split.
  - intros l. unfold copyAllCommands. f_equal. apply map_ext, E.
  - intros i. eexists. eexists. apply generateCommand_form.
Qed.

End Commands.

(** ** Substrings without regard to case *)

Section IgnoringCase.

Lemma prefix_iff (a s : string) :
  prefix a s = true <-> exists post, s = a ++ post.
Proof.
  revert s. induction a as [|x a IH]; intros s.
  - destruct s; simpl; split; eauto.
  - destruct s as [|y s]; simpl.
    + split; [discriminate | intros [post E]; discriminate].
    + destruct (ascii_dec x y) as [->|N].
      * rewrite IH. split; intros [post E]; exists post.
        -- now rewrite E.
        -- now inversion E.
      * split; [discriminate|].
        intros [post E]. simpl in E. congruence.
Qed.

Lemma includes_iff (s sub : string) :
  includes s sub = true <-> exists pre post, s = pre ++ sub ++ post.
Proof.
  induction s as [|c s IH].
  - cbn [includes]. rewrite orb_false_r, prefix_iff. split.
    + intros [post E]. now exists "", post.
    + intros [pre [post E]]. destruct pre; [now exists post | discriminate].
  - cbn [includes]. rewrite orb_true_iff, prefix_iff, IH. split.
    + intros [[post E] | [pre [post E]]].
      * now exists "", post.
      * exists (String c pre), post. simpl. now rewrite E.
    + intros [pre [post E]]. destruct pre as [|x pre].
      * left. now exists post.
      * right. exists pre, post. now inversion E.
Qed.

Lemma toLowerCase_app (a b : string) :
  toLowerCase (a ++ b) = toLowerCase a ++ toLowerCase b.
Proof. induction a as [|x a IH]; simpl; [reflexivity | now rewrite IH]. Qed.

(** Lower-casing works character by character, so a split of the
    lower-cased string comes from a split of the string. *)
Lemma toLowerCase_split (l a b : string) :
  toLowerCase l = a ++ b ->
  exists la lb, l = la ++ lb /\ toLowerCase la = a /\ toLowerCase lb = b.
Proof.
  revert l. induction a as [|x a IH]; intros l E.
  - now exists "", l.
  - destruct l as [|y l]; [discriminate|].
    simpl in E. inversion E as [[Ex Er]].
    destruct (IH l Er) as [la [lb [El [Ea Eb]]]].
    exists (String y la), lb. simpl. rewrite Ea, <- El. rewrite Ex. auto.
Qed.

(** The test of the sources, [l.toLowerCase().includes(w)] for a lower-case
    word [w], is containment without regard to case. *)
Lemma includes_lower_iff (l w : string) :
  toLowerCase w = w ->
  includes (toLowerCase l) w = true <-> containsIgnoringCase l w.
Proof.
  intros Hw. rewrite includes_iff. unfold containsIgnoringCase, equalIgnoringCase.
  rewrite Hw. split.
  - intros [pre [post E]].
    destruct (toLowerCase_split _ _ _ E) as [la [lr [El [_ Er]]]].
    destruct (toLowerCase_split _ _ _ Er) as [lm [lp [Em [Hm _]]]].
    exists la, lm, lp. now rewrite El, Em.
  - intros [pre [mid [post [E Hm]]]].
    exists (toLowerCase pre), (toLowerCase post).
    now rewrite E, !toLowerCase_app, Hm.
Qed.

Lemma existsb_lower_iff (ls : list string) (w : string) :
  toLowerCase w = w ->
  existsb (fun l => includes l w) (map toLowerCase ls) = true
  <-> someLabelContains ls w.
Proof.
  intros Hw. unfold someLabelContains. rewrite existsb_exists. split.
  - intros [x [Hin Hx]]. apply in_map_iff in Hin as [l [<- Hl]].
    exists l. split; [assumption|]. now apply includes_lower_iff.
  - intros [l [Hl Hc]]. exists (toLowerCase l). split.
    + now apply in_map.
    + now apply includes_lower_iff.
Qed.

Lemma existsb_lower_or_iff (ls : list string) (w1 w2 : string) :
  toLowerCase w1 = w1 -> toLowerCase w2 = w2 ->
  existsb (fun l => includes l w1 || includes l w2) (map toLowerCase ls) = true
  <-> someLabelContains ls w1 \/ someLabelContains ls w2.
Proof.
  intros H1 H2. rewrite <- (existsb_lower_iff ls w1 H1),
                        <- (existsb_lower_iff ls w2 H2).
  rewrite !existsb_exists. split.
  - intros [x [Hin Hx]]. apply orb_true_iff in Hx as [Hx|Hx]; eauto.
  - intros [[x [Hin Hx]] | [x [Hin Hx]]]; exists x;
      (split; [assumption|]); rewrite Hx; auto using orb_true_r.
Qed.

End IgnoringCase.

(** ** processParsedIssues *)

Section Processing.

Lemma processParsedIssues_nth (raw : list ParsedIssue) (k : nat) (issue : ParsedIssue) :
  nth_error raw k = Some issue ->
  nth_error (processParsedIssues raw) k = Some (processIssue issue).
Proof.
  intros H. unfold processParsedIssues. now apply map_nth_error.
Qed.

(** The three cases of the title prefix, on one issue. *)
Lemma processIssue_title (issue : ParsedIssue) :
  (someLabelContains (labels issue) "bug" ->
   title (processIssue issue) = trim ("[Bug] " ++ title issue))
  /\ (~ someLabelContains (labels issue) "bug" ->
      someLabelContains (labels issue) "feature"
      \/ someLabelContains (labels issue) "enhancement" ->
      title (processIssue issue) = trim ("[Feature] " ++ title issue))
  /\ (~ someLabelContains (labels issue) "bug" ->
      ~ someLabelContains (labels issue) "feature" ->
      ~ someLabelContains (labels issue) "enhancement" ->
      title (processIssue issue) = trim (title issue)).
Proof.
  pose proof (existsb_lower_iff (labels issue) "bug" eq_refl) as Hb.
  pose proof (existsb_lower_or_iff (labels issue) "feature" "enhancement"
                eq_refl eq_refl) as Hf.
  cbn [processIssue title].
  destruct (existsb (fun l => includes l "bug") (map toLowerCase (labels issue)))
    eqn:Eb;
  destruct (existsb (fun l => includes l "feature" || includes l "enhancement")
              (map toLowerCase (labels issue))) eqn:Ef.
  - repeat split; intros; try reflexivity; exfalso; tauto.
  - repeat split; intros; try reflexivity; exfalso; tauto.
  - repeat split; intros; try reflexivity; exfalso.
    + destruct Hb as [_ Hb]. specialize (Hb H). discriminate.
    + tauto.
  - repeat split; intros; try reflexivity; exfalso.
    + destruct Hb as [_ Hb]. specialize (Hb H). discriminate.
    + destruct Hf as [_ Hf]. specialize (Hf H0). discriminate.
Qed.

(** C2: for every raw issue, the processed issue at the same position has
    as title the trimmed text of prefix and raw title, where the prefix is
    [[Bug] ] if some label contains bug without regard to case, otherwise
    [[Feature] ] if some label contains feature or enhancement without
    regard to case, and otherwise there is no prefix and the title is the
    trimmed raw title. *)
Theorem title_prefix_rule
  (raw : list ParsedIssue) (k : nat) (issue : ParsedIssue)
  (H : nth_error raw k = Some issue) :
  exists p,
    nth_error (processParsedIssues raw) k = Some p
    /\ (someLabelContains (labels issue) "bug" ->
        title p = trim ("[Bug] " ++ title issue))
    /\ (~ someLabelContains (labels issue) "bug" ->
        someLabelContains (labels issue) "feature"
        \/ someLabelContains (labels issue) "enhancement" ->
        title p = trim ("[Feature] " ++ title issue))
    /\ (~ someLabelContains (labels issue) "bug" ->
        ~ someLabelContains (labels issue) "feature" ->
        ~ someLabelContains (labels issue) "enhancement" ->
        title p = trim (title issue)).
Proof.
  exists (processIssue issue). split.
  - now apply processParsedIssues_nth.
  - apply processIssue_title.
Qed.

(** The label [Bug] of the first sample contains bug without regard to
    case, and the processed title carries the prefix. *)
Lemma title_prefix_rule_witness :
  nth_error rawIssues 0 = Some bugIssue
  /\ someLabelContains (labels bugIssue) "bug"
  /\ exists p,
       nth_error (processParsedIssues rawIssues) 0 = Some p
       /\ title p = "[Bug] Crash on save".
Proof.
  assert (Hc : someLabelContains (labels bugIssue) "bug").
  { exists "Bug". split; [simpl; auto|]. exists "", "Bug", "". split; reflexivity. }
  split; [reflexivity|]. split; [exact Hc|].
  destruct (title_prefix_rule rawIssues 0 bugIssue eq_refl) as [p [Hp [Hbug _]]].
  exists p. split; [exact Hp|]. exact (Hbug Hc).
Defined.

(** The body written by the sources, with the appended block in the words
    of the specification. *)
Lemma processIssue_body_context (issue : ParsedIssue) (ctx : string) :
  originalContext issue = Some ctx -> ctx <> "" ->
  body (processIssue issue) =
  senderPrefix (sender issue) ++ body issue ++ contextSeparator ++ ctx.
Proof.
  intros Hc Hne. cbn [processIssue body]. rewrite Hc.
  destruct ctx as [|c ctx]; [contradiction|]. cbn [truthy].
  change ((((LF ++ LF ++ "---" ++ LF ++ LF) ++ "**Original Context:**" ++ LF)
             ++ LF) ++ "> ")
    with contextSeparator.
  rewrite append_assoc. f_equal.
  unfold senderPrefix. destruct (sender issue) as [s|]; [|reflexivity].
  destruct s as [|x s]; [reflexivity|].
  cbn [truthy andb]. change (String x s =? "") with false. cbn [orb].
  destruct (String x s =? "Unknown"); reflexivity.
Qed.

Lemma processIssue_body_plain (issue : ParsedIssue) :
  originalContext issue = None \/ originalContext issue = Some "" ->
  body (processIssue issue) = body issue.
Proof.
  intros [H|H]; cbn [processIssue body]; rewrite H; reflexivity.
Qed.

(** C3: for every raw issue with a non-empty original context, the
    processed body is the sender line (present exactly when the sender is
    given and is not Unknown), then the raw body, then the separator and the
    original context; for a raw issue without original context the body is
    the raw body. *)
Theorem body_context_merge
  (raw : list ParsedIssue) (k : nat) (issue : ParsedIssue)
  (H : nth_error raw k = Some issue) :
  exists p,
    nth_error (processParsedIssues raw) k = Some p
    /\ (forall ctx, originalContext issue = Some ctx -> ctx <> "" ->
        body p =
        senderPrefix (sender issue) ++ body issue ++ contextSeparator ++ ctx)
    /\ (forall s, sender issue = Some s -> s <> "" -> s <> "Unknown" ->
        senderPrefix (sender issue) = "From " ++ s ++ ":" ++ LF)
    /\ (sender issue = None \/ sender issue = Some ""
        \/ sender issue = Some "Unknown" ->
        senderPrefix (sender issue) = "")
    /\ (originalContext issue = None \/ originalContext issue = Some "" ->
        body p = body issue).
Proof.
  exists (processIssue issue).
  split; [now apply processParsedIssues_nth|].
  split; [apply processIssue_body_context|].
  split; [|split; [|apply processIssue_body_plain]].
  - intros s Hs H1 H2. rewrite Hs. cbn [senderPrefix].
    apply String.eqb_neq in H1, H2. now rewrite H1, H2.
  - intros [Hs|[Hs|Hs]]; rewrite Hs; reflexivity.
Qed.

Lemma body_context_merge_witness :
  nth_error rawIssues 0 = Some bugIssue
  /\ exists p,
       nth_error (processParsedIssues rawIssues) 0 = Some p
       /\ body p =
          "From Alice:" ++ LF ++ "The editor crashes." ++ contextSeparator
          ++ "it crashes when I save".
Proof.
  split; [reflexivity|].
  destruct (body_context_merge rawIssues 0 bugIssue eq_refl)
    as [p [Hp [Hbody _]]].
  exists p. split; [exact Hp|].
  rewrite (Hbody "it crashes when I save" eq_refl); [reflexivity|discriminate].
Defined.

(** C9: every processed issue has no original context, and the id and the
    labels of the raw issue at the same position; so processing a second
    time leaves every body as it is: the context block is appended once. *)
Theorem processed_context_cleared (raw : list ParsedIssue) :
  List.length (processParsedIssues raw) = List.length raw
  /\ map originalContext (processParsedIssues raw) = map (fun _ => None) raw
  /\ map id (processParsedIssues raw) = map id raw
  /\ map labels (processParsedIssues raw) = map labels raw
  /\ map body (processParsedIssues (processParsedIssues raw))
     = map body (processParsedIssues raw).
Proof.
  unfold processParsedIssues. rewrite length_map, !map_map.
  repeat split; apply map_ext; intros i; reflexivity.
Qed.

End Processing.

(** ** handleGenerate *)

Section Generate.

Variable api : string -> string -> ApiOutcome.

Lemma handleGenerate_begin_blank (st : State) :
  blankInput st -> handleGenerate_begin st = (st, None).
Proof.
  intros [Hs Hb]. unfold handleGenerate_begin. now rewrite Hs, Hb.
Qed.

Lemma handleGenerate_begin_filled (st : State) :
  ~ blankInput st ->
  handleGenerate_begin st =
  (setIssues [] (setErrorMsg None (setStatus ANALYZING st)),
   Some (subject (emailContent st), emailBody (emailContent st))).
Proof.
  intros Hn. unfold handleGenerate_begin, blankInput in *.
  destruct (trim (subject (emailContent st))) eqn:Es;
    destruct (trim (emailBody (emailContent st))) eqn:Eb;
    try reflexivity.
  exfalso. apply Hn. split; reflexivity.
Qed.

(** A rejected call shows the static message in the error panel. *)
Lemma handleGenerate_rejected (st : State) :
  ~ blankInput st ->
  api (subject (emailContent st)) (emailBody (emailContent st)) = Rejected ->
  displayedError (handleGenerate api st) = Some parseFailed.
Proof.
  intros Hn Ha. unfold handleGenerate.
  rewrite (handleGenerate_begin_filled st Hn), Ha. reflexivity.
Qed.

(** A call that returns issues shows them and no message. *)
Lemma handleGenerate_resolved (st : State) (i : ParsedIssue) (l : list ParsedIssue) :
  ~ blankInput st ->
  api (subject (emailContent st)) (emailBody (emailContent st))
    = Resolved (i :: l) ->
  displayedError (handleGenerate api st) = None
  /\ issues (handleGenerate api st) = processParsedIssues (i :: l)
  /\ status (handleGenerate api st) = COMPLETE.
Proof.
  intros Hn Ha. unfold handleGenerate.
  rewrite (handleGenerate_begin_filled st Hn), Ha. repeat split.
Qed.

(** A call that returns no issue stores the message and leaves the status
    IDLE, so the error panel is not rendered and the message is not seen. *)
Lemma handleGenerate_empty (st : State) :
  ~ blankInput st ->
  api (subject (emailContent st)) (emailBody (emailContent st)) = Resolved [] ->
  errorMsg (handleGenerate api st) = Some noRequestsFound
  /\ status (handleGenerate api st) = IDLE
  /\ displayedError (handleGenerate api st) = None
  /\ emptyStateShown (handleGenerate api st) = true.
Proof.
  intros Hn Ha. unfold handleGenerate.
  rewrite (handleGenerate_begin_filled st Hn), Ha. repeat split.
Qed.

(** C10: when subject and body are both empty after trimming,
    [handleGenerate] issues no call and leaves the state (issue list,
    status, error message and form fields) as it was; the button is enabled
    all the same whenever the status is not ANALYZING and one of the two
    untrimmed fields is not empty. *)
Theorem blank_input_no_change (st : State)
  (Hs : trim (subject (emailContent st)) = "")
  (Hb : trim (emailBody (emailContent st)) = "") :
  handleGenerate_begin st = (st, None)
  /\ handleGenerate api st = st
  /\ issues (handleGenerate api st) = issues st
  /\ status (handleGenerate api st) = status st
  /\ errorMsg (handleGenerate api st) = errorMsg st
  /\ (status st <> ANALYZING ->
      subject (emailContent st) <> "" \/ emailBody (emailContent st) <> "" ->
      generateDisabled st = false).
Proof.
  assert (E : handleGenerate_begin st = (st, None))
    by (apply handleGenerate_begin_blank; split; assumption).
  assert (E' : handleGenerate api st = st)
    by (unfold handleGenerate; now rewrite E).
  rewrite E'. repeat (split; [reflexivity || assumption|]).
  intros Hst Hne. unfold generateDisabled.
  destruct (status st); try congruence; cbn [ProcessingStatus_eqb orb];
    destruct (subject (emailContent st)), (emailBody (emailContent st));
    try reflexivity; destruct Hne; congruence.
Qed.

End Generate.

(** A form that holds white space only: the button is enabled, the click
    changes nothing. *)
Lemma blank_input_no_change_witness :
  trim (subject (emailContent whitespaceState)) = ""
  /\ trim (emailBody (emailContent whitespaceState)) = ""
  /\ handleGenerate apiAnswers whitespaceState = whitespaceState
  /\ generateDisabled whitespaceState = false.
Proof.
  split; [reflexivity|]. split; [reflexivity|].
  destruct (blank_input_no_change apiAnswers whitespaceState eq_refl eq_refl)
    as [_ [E [_ [_ [_ Hbtn]]]]].
  split; [exact E|].
  apply Hbtn; [discriminate | left; discriminate].
Defined.

(** C4 at the empty response: the message is stored but the status is set
    to IDLE, which renders the empty-state panel and not the error panel;
    the user sees no message.  A rejected call does show its message. *)
Theorem empty_response_message_not_displayed :
  errorMsg (handleGenerate apiEmpty filledState) = Some noRequestsFound
  /\ status (handleGenerate apiEmpty filledState) = IDLE
  /\ errorPanelShown (handleGenerate apiEmpty filledState) = false
  /\ displayedError (handleGenerate apiEmpty filledState) = None
  /\ emptyStateShown (handleGenerate apiEmpty filledState) = true
  /\ displayedError (handleGenerate apiFails filledState) = Some parseFailed.
Proof. repeat split. Qed.

(** ** One call at a time *)

Section SingleRequest.

Lemma singleRequest_initial : singleRequest initialSystem.
Proof. reflexivity. Qed.

(** While issues are listed the status is not ANALYZING and no call is in
    flight. *)
Lemma singleRequest_listed (sys : System) :
  singleRequest sys -> issues (ui sys) <> [] ->
  status (ui sys) <> ANALYZING /\ inflight sys = [].
Proof.
  unfold singleRequest. intros Hinv Hne.
  destruct (status (ui sys)); try (split; [discriminate | assumption]).
  destruct Hinv as [He _]. contradiction.
Qed.

Lemma resultsShown_listed (st : State) :
  resultsShown st = true -> issues st <> [].
Proof.
  unfold resultsShown. destruct (issues st); [discriminate | discriminate].
Qed.

Lemma existsb_listed {A} (f : A -> bool) (l : list A) :
  existsb f l = true -> l <> [].
Proof. destruct l; [discriminate | discriminate]. Qed.

(** The invariant is kept by every step. *)
Lemma singleRequest_step (sys sys' : System) (ev : Event) :
  singleRequest sys -> step sys ev = Some sys' -> singleRequest sys'.
Proof.
  intros Hinv Hstep. destruct sys as [st fl].
  destruct ev; cbn [step ui inflight] in Hstep.
  - (* EditSubject *)
    injection Hstep as <-. exact Hinv.
  - (* EditBody *)
    injection Hstep as <-. exact Hinv.
  - (* ClickGenerate *)
    destruct (generateDisabled st) eqn:Hd; [discriminate|].
    unfold generateDisabled in Hd. apply orb_false_iff in Hd as [Hs _].
    unfold singleRequest in Hinv. cbn [ui inflight] in Hinv.
    unfold handleGenerate_begin in Hstep.
    destruct (negb (truthy (trim (subject (emailContent st))))
              && negb (truthy (trim (emailBody (emailContent st)))));
      injection Hstep as <-.
    + exact Hinv.
    + destruct (status st); try discriminate; subst fl;
        unfold singleRequest; cbn; split; reflexivity.
  - (* ClickTryAgain *)
    destruct (errorPanelShown st) eqn:He; [|discriminate].
    injection Hstep as <-.
    unfold errorPanelShown in He. unfold singleRequest in *.
    cbn [ui inflight status setStatus] in *.
    destruct (status st); try discriminate. exact Hinv.
  - (* ClickClear *)
    destruct (resultsShown st) eqn:Hr; [|discriminate].
    injection Hstep as <-.
    destruct (singleRequest_listed _ Hinv (resultsShown_listed _ Hr)) as [Hn Hf].
    cbn [ui inflight] in *. unfold singleRequest. cbn.
    destruct (status st); try assumption. congruence.
  - (* ClickCopyAll *)
    destruct (resultsShown st); [|discriminate].
    injection Hstep as <-. exact Hinv.
  - (* SaveEdits *)
    destruct (resultsShown st) eqn:Hr; [|discriminate].
    injection Hstep as <-.
    destruct (singleRequest_listed _ Hinv (resultsShown_listed _ Hr)) as [Hn Hf].
    cbn [ui inflight] in *. unfold singleRequest. cbn.
    destruct (status st); try assumption. congruence.
  - (* ClickRemove *)
    destruct (existsb (fun i => id i =? id0) (issues st)) eqn:Hx; [|discriminate].
    injection Hstep as <-.
    destruct (singleRequest_listed _ Hinv (existsb_listed _ _ Hx)) as [Hn Hf].
    cbn [ui inflight] in *. unfold singleRequest, handleDeleteIssue.
    destruct (List.length (issues st) <=? 1)%nat; cbn;
      [assumption|].
    destruct (status st); try assumption. congruence.
  - (* Settle *)
    destruct fl as [|r rest]; [discriminate|].
    injection Hstep as <-.
    unfold singleRequest in Hinv. cbn [ui inflight] in Hinv.
    destruct (status st) eqn:Es; try discriminate.
    destruct Hinv as [_ Hl]. destruct rest; [|discriminate].
    unfold singleRequest, handleGenerate_settle.
    destruct o as [raw|]; [destruct (List.length raw =? 0)%nat|]; reflexivity.
Qed.

Lemma singleRequest_run (evs : list Event) (sys sys' : System) :
  singleRequest sys -> run sys evs = Some sys' -> singleRequest sys'.
Proof.
  revert sys. induction evs as [|ev evs IH]; intros sys Hinv Hrun.
  - injection Hrun as <-. exact Hinv.
  - cbn [run] in Hrun. destruct (step sys ev) as [sys1|] eqn:Hs; [|discriminate].
    eapply IH; [|exact Hrun]. eapply singleRequest_step; eassumption.
Qed.

Lemma singleRequest_reachable (sys : System) :
  reachable sys -> singleRequest sys.
Proof.
  intros [evs Hrun]. eapply singleRequest_run; [apply singleRequest_initial | exact Hrun].
Qed.

(** With the invariant and the status ANALYZING no event adds a call. *)
Lemma analyzing_no_new_request (sys : System) (ev : Event) :
  status (ui sys) = ANALYZING -> startsRequest sys ev = false.
Proof.
  intros Ha. unfold startsRequest.
  destruct (step sys ev) as [sys'|] eqn:Hs; [|reflexivity].
  apply Nat.ltb_ge.
  destruct sys as [st fl]. cbn [ui inflight] in *.
  destruct ev; cbn [step ui inflight] in Hs.
  - injection Hs as <-. cbn. lia.
  - injection Hs as <-. cbn. lia.
  - unfold generateDisabled in Hs. rewrite Ha in Hs. discriminate.
  - destruct (errorPanelShown st); [|discriminate]. injection Hs as <-. cbn. lia.
  - destruct (resultsShown st); [|discriminate]. injection Hs as <-. cbn. lia.
  - destruct (resultsShown st); [|discriminate]. injection Hs as <-. cbn. lia.
  - destruct (resultsShown st); [|discriminate]. injection Hs as <-. cbn. lia.
  - destruct (existsb _ _); [|discriminate]. injection Hs as <-. cbn. lia.
  - destruct fl; [discriminate|]. injection Hs as <-. cbn. lia.
Qed.

(** C6: in every reachable state of the component at most one call of
    [parseEmailToIssues] is in flight; a call is in flight exactly while the
    status is ANALYZING, and in such a state no event issues another call:
    the generate button is disabled, and no other control calls the API. *)
Theorem one_request_at_a_time (sys : System) (H : reachable sys) :
  List.length (inflight sys) <= 1
  /\ (inflight sys <> [] <-> status (ui sys) = ANALYZING)
  /\ (status (ui sys) = ANALYZING ->
      generateDisabled (ui sys) = true
      /\ step sys ClickGenerate = None
      /\ forall ev, startsRequest sys ev = false).
Proof.
  pose proof (singleRequest_reachable sys H) as Hinv.
  unfold singleRequest in Hinv.
  split; [|split].
  - destruct (status (ui sys)); try (rewrite Hinv; cbn; lia).
    destruct Hinv as [_ ->]. lia.
  - destruct (status (ui sys)); split; intros Hx;
      try contradiction; try discriminate; try reflexivity.
    destruct Hinv as [_ Hl]. intros E. rewrite E in Hl. discriminate.
  - intros Ha. split; [|split].
    + unfold generateDisabled. now rewrite Ha.
    + destruct sys as [st fl]. cbn [step ui] in *.
      unfold generateDisabled. now rewrite Ha.
    + intros ev. now apply analyzing_no_new_request.
Qed.

Lemma one_request_at_a_time_witness :
  reachable analyzingSystem
  /\ status (ui analyzingSystem) = ANALYZING
  /\ List.length (inflight analyzingSystem) <= 1
  /\ startsRequest analyzingSystem ClickGenerate = false.
Proof.
  assert (Hr : reachable analyzingSystem)
    by (exists [EditSubject "Feedback"; ClickGenerate]; reflexivity).
  split; [exact Hr|]. split; [reflexivity|].
  destruct (one_request_at_a_time analyzingSystem Hr) as [Hle [_ Hno]].
  split; [exact Hle|].
  destruct (Hno eq_refl) as [_ [_ Hev]]. apply Hev.
Defined.

End SingleRequest.

(** ** The declared types *)

Section DeclaredTypes.

(** C7, as stated, fails: the interface declares the property [id], which
    is not among the listed fields. *)
Lemma interface_declares_id :
  In "id" (map fieldName ParsedIssue_interface)
  /\ ~ In "id" listedFields
  /\ ~ (forall f, In f (map fieldName ParsedIssue_interface) <-> In f listedFields).
Proof.
  assert (Hin : In "id" (map fieldName ParsedIssue_interface))
    by (simpl; auto).
  assert (Hout : ~ In "id" listedFields).
  { simpl. intros [E|[E|[E|[E|[E|[]]]]]]; discriminate. }
  split; [exact Hin|]. split; [exact Hout|].
  intros Hall. apply Hout, Hall, Hin.
Qed.

(** C7, amended: the declared issue record contains the required fields
    [id], [title], [body] (strings) and [labels] (a list of strings) and the
    optional string field [originalContext], each declared once, and no
    field other than these and an optional string field [sender]; the status
    flag has exactly the four states IDLE, ANALYZING, COMPLETE and ERROR,
    told apart by their string values. *)
Theorem declared_record_and_status :
  incl recordFields ParsedIssue_interface
  /\ incl ParsedIssue_interface (recordFields ++ [senderField])
  /\ NoDup (map fieldName ParsedIssue_interface)
  /\ (forall s : ProcessingStatus, In s ProcessingStatus_members)
  /\ NoDup ProcessingStatus_members
  /\ List.length ProcessingStatus_members = 4
  /\ map statusValue ProcessingStatus_members
     = ["IDLE"; "ANALYZING"; "COMPLETE"; "ERROR"]
  /\ NoDup (map statusValue ProcessingStatus_members).
Proof.
  split; [intros d Hd; exact Hd|].
  split; [intros d Hd; apply in_or_app; left; exact Hd|].
  split; [simpl; repeat constructor; simpl; intuition discriminate|].
  split; [intros []; simpl; tauto|].
  assert (N : NoDup ProcessingStatus_members).
  { unfold ProcessingStatus_members.
    repeat constructor; simpl; intuition discriminate. }
  split; [exact N|]. split; [reflexivity|]. split; [reflexivity|].
  simpl. repeat constructor; simpl; intuition discriminate.
Qed.

End DeclaredTypes.

(* ================================================================== *)
(** * Further properties of the code *)

(** ** escapeForShell and the shell *)

Section EscapingMore.

(** [escapeForShell] distributes over concatenation. *)
Theorem escapeForShell_app (a b : string) :
  escapeForShell (a ++ b) = escapeForShell a ++ escapeForShell b.
Proof.
  rewrite !escapeForShell_escaped. apply charwise_app.
Qed.

Lemma shellRead_escapeChar (c : ascii) (r : string) :
  shellRead (escapeChar c ++ r) = option_map (String c) (shellRead r).
Proof.
  destruct c as [[] [] [] [] [] [] [] []]; reflexivity.
Qed.

Lemma shellRead_escaped (s : string) : shellRead (escaped s) = Some s.
Proof.
  induction s as [|c s IH]; [reflexivity|].
  change (escaped (String c s)) with (escapeChar c ++ escaped s).
  now rewrite shellRead_escapeChar, IH.
Qed.

(** The shell reads an escaped text back as the text itself: inside double
    quotes the escaped title and body stand for the title and the body, with
    no expansion and no early end of the quoted text.  So two texts with the
    same escaped form are equal. *)
Theorem escapeForShell_read_back :
  (forall s : string, shellRead (escapeForShell s) = Some s)
  /\ (forall a b : string, escapeForShell a = escapeForShell b -> a = b).
Proof.
  assert (R : forall s, shellRead (escapeForShell s) = Some s).
  { intros s. rewrite escapeForShell_escaped. apply shellRead_escaped. }
  split; [exact R|].
  intros a b E. pose proof (R a) as Ha. rewrite E, R in Ha. congruence.
Qed.

Lemma escapeForShell_read_back_witness :
  escapeForShell "a$b" = escapeForShell "a$b" /\ "a$b" = "a$b".
Proof.
  split; [reflexivity|].
  apply (proj2 escapeForShell_read_back "a$b" "a$b"). reflexivity.
Defined.

Lemma length_append (a b : string) :
  String.length (a ++ b) = String.length a + String.length b.
Proof. induction a as [|x a IH]; simpl; [reflexivity | now rewrite IH]. Qed.

Lemma length_escapeChar (c : ascii) :
  String.length (escapeChar c) = (if isShellSpecial c then 1 else 0) + 1.
Proof. rewrite escapeChar_cases. destruct (isShellSpecial c); reflexivity. Qed.

Lemma length_escaped (s : string) :
  String.length (escaped s) = String.length s + countSpecial s.
Proof.
  induction s as [|c s IH]; [reflexivity|].
  change (escaped (String c s)) with (escapeChar c ++ escaped s).
  rewrite length_append, length_escapeChar, IH. simpl. lia.
Qed.

Lemma escaped_plain (s : string) : countSpecial s = 0 -> escaped s = s.
Proof.
  induction s as [|c s IH]; [reflexivity|].
  simpl. intros H.
  change (escaped (String c s)) with (escapeChar c ++ escaped s).
  rewrite escapeChar_cases.
  destruct (isShellSpecial c); [discriminate|].
  simpl in H. now rewrite (IH H).
Qed.

(** The escaped text is longer than the text by the number of its
    backslashes, double quotes, backticks and dollar signs, so at most twice
    as long; and it is the text itself exactly when the text has none of
    these characters. *)
Theorem escapeForShell_length (s : string) :
  String.length (escapeForShell s) = String.length s + countSpecial s
  /\ String.length (escapeForShell s) <= 2 * String.length s
  /\ (escapeForShell s = s <-> countSpecial s = 0).
Proof.
  rewrite escapeForShell_escaped.
  pose proof (length_escaped s) as L.
  assert (B : countSpecial s <= String.length s).
  { clear L. induction s as [|c s IH]; simpl; [lia|].
    destruct (isShellSpecial c); lia. }
  split; [exact L|]. split; [lia|]. split.
  - intros E. rewrite E in L. lia.
  - apply escaped_plain.
Qed.

Lemma escapeForShell_length_witness :
  countSpecial "Fix login" = 0 /\ escapeForShell "Fix login" = "Fix login".
Proof.
  split; [reflexivity|].
  apply (proj2 (proj2 (escapeForShell_length "Fix login"))). reflexivity.
Defined.

Lemma charwise_ext_occurs (f g : ascii -> string) (s : string) :
  (forall c, occurs c s = true -> f c = g c) -> charwise f s = charwise g s.
Proof.
  induction s as [|x s IH]; intros H; [reflexivity|].
  simpl. rewrite (H x), IH; [reflexivity | | ].
  - intros c Hc. apply H. simpl. rewrite Hc. apply orb_true_r.
  - simpl. now rewrite Ascii.eqb_refl.
Qed.

Lemma occurs_false_neq (c x : ascii) (s : string) :
  occurs c s = false -> occurs x s = true -> x <> c.
Proof. intros Hc Hx E. subst. congruence. Qed.

Lemma previewTitle_escaped (t : string) :
  occurs backslash t = false -> occurs backtick t = false ->
  occurs dollar t = false ->
  replaceAll dquote (String backslash DQ) t = escaped t.
Proof.
  intros H1 H2 H3. rewrite replaceAll_charwise.
  apply charwise_ext_occurs. intros c Hc.
  pose proof (occurs_false_neq _ _ _ H1 Hc) as N1.
  pose proof (occurs_false_neq _ _ _ H2 Hc) as N2.
  pose proof (occurs_false_neq _ _ _ H3 Hc) as N3.
  clear - N1 N2 N3.
  destruct c as [[] [] [] [] [] [] [] []];
    try reflexivity; exfalso; (now apply N1) || (now apply N2) || (now apply N3).
Qed.

Lemma previewBody_escaped (b : string) :
  occurs backslash b = false -> occurs dollar b = false ->
  replaceAll backtick "\`" (replaceAll dquote (String backslash DQ) b)
  = escaped b.
Proof.
  intros H1 H3. rewrite !replaceAll_charwise, charwise_charwise.
  apply charwise_ext_occurs. intros c Hc.
  pose proof (occurs_false_neq _ _ _ H1 Hc) as N1.
  pose proof (occurs_false_neq _ _ _ H3 Hc) as N3.
  clear - N1 N3.
  destruct c as [[] [] [] [] [] [] [] []];
    try reflexivity; exfalso; (now apply N1) || (now apply N3).
Qed.

(** The preview command is the copy-all command of the issue when the title
    has no backslash, backtick or dollar sign and the body no backslash or
    dollar sign. *)
Theorem preview_agrees_with_copyAll (i : ParsedIssue)
  (Ht1 : occurs backslash (title i) = false)
  (Ht2 : occurs backtick (title i) = false)
  (Ht3 : occurs dollar (title i) = false)
  (Hb1 : occurs backslash (body i) = false)
  (Hb2 : occurs dollar (body i) = false) :
  CommandPreview.generateCommand i = issueCommand i
  /\ CommandPreview.generateCommand i = copyAllCommands [i].
Proof.
  assert (E : CommandPreview.generateCommand i = issueCommand i).
  { rewrite generateCommand_form, issueCommand_form, !escapeForShell_escaped.
    now rewrite previewTitle_escaped, previewBody_escaped. }
  split; [exact E|]. rewrite E. reflexivity.
Qed.

Lemma preview_agrees_with_copyAll_witness :
  CommandPreview.generateCommand (processIssue bugIssue)
  = copyAllCommands [processIssue bugIssue].
Proof.
  apply (preview_agrees_with_copyAll (processIssue bugIssue)); reflexivity.
Defined.

End EscapingMore.

(** ** More on trimming *)

Section TrimmingMore.

Lemma trimEnd_idempotent (s : string) : trimEnd (trimEnd s) = trimEnd s.
Proof.
  induction s as [|c s IH]; [reflexivity|].
  simpl. destruct (trimEnd s) as [|x e] eqn:E.
  - destruct (isWhiteSpace c) eqn:W; [reflexivity|].
    simpl. now rewrite W.
  - change (trimEnd (String c (String x e)))
      with (match trimEnd (String x e) with
            | EmptyString =>
                if isWhiteSpace c then EmptyString else String c EmptyString
            | r' => String c r'
            end).
    now rewrite IH.
Qed.

(** A trimmed end keeps the first character of a string that does not
    start with white space. *)
Lemma trimStart_trimEnd (s : string) :
  trimStart s = s -> trimStart (trimEnd s) = trimEnd s.
Proof.
  destruct s as [|c s]; [reflexivity|].
  simpl. destruct (isWhiteSpace c) eqn:W.
  - intros E. exfalso.
    assert (L : String.length (trimStart s) <= String.length s).
    { clear. induction s as [|x s IH]; simpl; [lia|].
      destruct (isWhiteSpace x); simpl; lia. }
    rewrite E in L. simpl in L. lia.
  - intros _. destruct (trimEnd s); simpl; now rewrite W.
Qed.

Lemma trimStart_idempotent (s : string) : trimStart (trimStart s) = trimStart s.
Proof.
  induction s as [|c s IH]; [reflexivity|].
  simpl. destruct (isWhiteSpace c) eqn:W; [exact IH|].
  simpl. now rewrite W.
Qed.

Lemma trim_idempotent (s : string) : trim (trim s) = trim s.
Proof.
  unfold trim.
  rewrite (trimStart_trimEnd (trimStart s) (trimStart_idempotent s)).
  apply trimEnd_idempotent.
Qed.

Lemma trimStart_app_blank (x w : string) :
  allWhiteSpace w = true ->
  trimStart (x ++ w) = if allWhiteSpace x then "" else trimStart x ++ w.
Proof.
  intros Hw. induction x as [|c x IH]; simpl.
  - now apply trimStart_blank_iff.
  - destruct (isWhiteSpace c); simpl; [exact IH | reflexivity].
Qed.

(** White space at the end of a string does not change its trimmed form. *)
Lemma trim_app_blank (x w : string) :
  allWhiteSpace w = true -> trim (x ++ w) = trim x.
Proof.
  intros Hw. unfold trim. rewrite (trimStart_app_blank x w Hw).
  destruct (allWhiteSpace x) eqn:Hx.
  - apply trimStart_blank_iff in Hx. now rewrite Hx.
  - apply trimEnd_app_blank. now apply trimEnd_blank_iff.
Qed.

Lemma occurs_trimStart (c : ascii) (s : string) :
  occurs c s = false -> occurs c (trimStart s) = false.
Proof.
  induction s as [|x s IH]; [reflexivity|].
  simpl. intros H. apply orb_false_iff in H as [H1 H2].
  destruct (isWhiteSpace x); [now apply IH|].
  simpl. now rewrite H1, H2.
Qed.

Lemma occurs_trimEnd (c : ascii) (s : string) :
  occurs c s = false -> occurs c (trimEnd s) = false.
Proof.
  induction s as [|x s IH]; [reflexivity|].
  simpl. intros H. apply orb_false_iff in H as [H1 H2].
  specialize (IH H2).
  destruct (trimEnd s) as [|y e].
  - destruct (isWhiteSpace x); [reflexivity|]. simpl. now rewrite H1.
  - simpl. simpl in IH. now rewrite H1, IH.
Qed.

Lemma occurs_trim (c : ascii) (s : string) :
  occurs c s = false -> occurs c (trim s) = false.
Proof. intros H. now apply occurs_trimEnd, occurs_trimStart. Qed.

(** The title of every processed issue is trimmed: it neither starts nor
    ends with white space. *)
Theorem processed_title_trimmed (raw : list ParsedIssue) :
  Forall (fun p => trim (title p) = title p
                   /\ trimStart (title p) = title p
                   /\ trimEnd (title p) = title p)
         (processParsedIssues raw).
Proof.
  unfold processParsedIssues. apply Forall_forall. intros p Hp.
  apply in_map_iff in Hp as [i [<- _]]. cbn [processIssue title].
  set (t := _ ++ title i).
  split; [apply trim_idempotent|]. unfold trim. split.
  - apply trimStart_trimEnd, trimStart_idempotent.
  - apply trimEnd_idempotent.
Qed.

End TrimmingMore.

(** ** The labels field of the edit form *)

Section LabelsField.

Lemma split_nonempty (sep : ascii) (s : string) : split sep s <> [].
Proof.
  destruct s as [|c s]; simpl; [discriminate|].
  destruct (Ascii.eqb c sep); [discriminate|].
  destruct (split sep s); discriminate.
Qed.

Lemma split_plain (sep : ascii) (s : string) :
  occurs sep s = false -> split sep s = [s].
Proof.
  induction s as [|c s IH]; [reflexivity|].
  simpl. intros H. apply orb_false_iff in H as [H1 H2].
  now rewrite H1, (IH H2).
Qed.

Lemma split_app_sep (sep : ascii) (a b : string) :
  occurs sep a = false ->
  split sep (a ++ String sep b) = a :: split sep b.
Proof.
  induction a as [|c a IH]; simpl.
  - intros _. now rewrite Ascii.eqb_refl.
  - intros H. apply orb_false_iff in H as [H1 H2].
    now rewrite H1, (IH H2).
Qed.

Lemma split_no_sep (sep : ascii) (s : string) :
  Forall (fun x => occurs sep x = false) (split sep s).
Proof.
  induction s as [|c s IH]; simpl.
  - repeat constructor.
  - destruct (Ascii.eqb c sep) eqn:E.
    + constructor; [reflexivity | exact IH].
    + destruct (split sep s) as [|x xs].
      * repeat constructor. simpl. now rewrite E.
      * inversion IH as [|? ? Hx Hxs]; subst.
        constructor; [|exact Hxs]. simpl. now rewrite E, Hx.
Qed.

Lemma split_snoc_sep (sep : ascii) (s : string) :
  split sep (s ++ String sep "") = (split sep s ++ [""])%list.
Proof.
  induction s as [|c s IH]; simpl.
  - now rewrite Ascii.eqb_refl.
  - destruct (Ascii.eqb c sep); [now rewrite IH|].
    rewrite IH. pose proof (split_nonempty sep s) as N.
    destruct (split sep s) as [|x xs]; [contradiction | reflexivity].
Qed.

Lemma split_app_plain (sep : ascii) (s w : string) :
  occurs sep w = false ->
  split sep (s ++ w) = appendLast w (split sep s).
Proof.
  intros Hw. induction s as [|c s IH]; simpl.
  - now apply split_plain.
  - pose proof (split_nonempty sep s) as N. rewrite IH.
    destruct (Ascii.eqb c sep).
    + destruct (split sep s) as [|x xs]; [contradiction | reflexivity].
    + destruct (split sep s) as [|x xs]; [contradiction|].
      destruct xs; reflexivity.
Qed.

Lemma map_trim_appendLast (w : string) (pieces : list string) :
  allWhiteSpace w = true ->
  map trim (appendLast w pieces) = map trim pieces.
Proof.
  intros Hw. induction pieces as [|x xs IH]; [reflexivity|].
  destruct xs as [|y ys].
  - simpl. now rewrite trim_app_blank.
  - change (appendLast w (x :: y :: ys)) with (x :: appendLast w (y :: ys)).
    change (map trim (x :: appendLast w (y :: ys)))
      with (trim x :: map trim (appendLast w (y :: ys))).
    now rewrite IH.
Qed.

Lemma parseLabels_space_first (v : string) :
  CommandPreview.parseLabels (String " " v) = CommandPreview.parseLabels v.
Proof.
  unfold CommandPreview.parseLabels. simpl.
  pose proof (split_nonempty ","%char v) as N.
  destruct (split ","%char v) as [|x xs]; [contradiction | reflexivity].
Qed.

(** The labels read from the field are well formed, whatever is typed:
    none is empty, none starts or ends with white space, none holds a
    comma. *)
Theorem parseLabels_wellFormed (value : string) :
  forallb wellFormedLabel (CommandPreview.parseLabels value) = true.
Proof.
  unfold CommandPreview.parseLabels. apply forallb_forall. intros l Hl.
  apply filter_In in Hl as [Hin Ht].
  apply in_map_iff in Hin as [x [<- Hx]].
  unfold wellFormedLabel. rewrite Ht, trim_idempotent, String.eqb_refl.
  pose proof (split_no_sep ","%char value) as F.
  rewrite Forall_forall in F.
  now rewrite (occurs_trim _ _ (F x Hx)).
Qed.

Lemma wellFormedLabel_inv (l : string) :
  wellFormedLabel l = true ->
  truthy l = true /\ trim l = l /\ occurs ","%char l = false.
Proof.
  unfold wellFormedLabel. intros H.
  apply andb_true_iff in H as [H H3]. apply andb_true_iff in H as [H1 H2].
  apply String.eqb_eq in H2. apply negb_true_iff in H3. auto.
Qed.

Lemma parseLabels_of_text (ls : list string) :
  forallb wellFormedLabel ls = true ->
  CommandPreview.parseLabels (CommandPreview.labelsText ls) = ls.
Proof.
  intros H.
  unfold CommandPreview.labelsText.
  induction ls as [|l ls IH]; [reflexivity|].
  simpl in H. apply andb_true_iff in H as [Hl Hls].
  destruct (wellFormedLabel_inv l Hl) as [H1 [H2 H3]].
  destruct ls as [|l2 rest].
  - unfold CommandPreview.parseLabels. cbn [join].
    rewrite (split_plain ","%char l H3). simpl. now rewrite H2, H1.
  - change (join ", " (l :: l2 :: rest))
      with (l ++ String ","%char (String " " (join ", " (l2 :: rest)))).
    specialize (IH Hls).
    rewrite <- parseLabels_space_first in IH.
    unfold CommandPreview.parseLabels in *.
    rewrite (split_app_sep ","%char _ _ H3).
    cbn [map filter]. rewrite H2, H1. now rewrite IH.
Qed.

(** Well-formed labels come back from the text the field shows for them. *)
Theorem parseLabels_labelsText (ls : list string)
  (H : forallb wellFormedLabel ls = true) :
  CommandPreview.parseLabels (CommandPreview.labelsText ls) = ls.
Proof. now apply parseLabels_of_text. Qed.

Lemma parseLabels_labelsText_witness :
  CommandPreview.parseLabels
    (CommandPreview.labelsText ["bug"; "good first issue"])
  = ["bug"; "good first issue"].
Proof.
  apply (parseLabels_labelsText ["bug"; "good first issue"]). reflexivity.
Defined.

Lemma parseLabels_comma_end (value : string) :
  CommandPreview.parseLabels (value ++ ",") = CommandPreview.parseLabels value.
Proof.
  unfold CommandPreview.parseLabels.
  change "," with (String ","%char "").
  rewrite split_snoc_sep, map_app, filter_app. simpl. apply app_nil_r.
Qed.

(** A comma or white space typed at the end of the field does not change
    the labels read from it. *)
Theorem parseLabels_trailing (value w : string) :
  CommandPreview.parseLabels (value ++ ",") = CommandPreview.parseLabels value
  /\ (allWhiteSpace w = true ->
      CommandPreview.parseLabels (value ++ w) = CommandPreview.parseLabels value).
Proof.
  unfold CommandPreview.parseLabels. split.
  - change "," with (String ","%char "").
    rewrite split_snoc_sep, map_app, filter_app. simpl. apply app_nil_r.
  - intros Hw.
    assert (Hc : occurs ","%char w = false).
    { clear - Hw. induction w as [|c w IH]; [reflexivity|].
      simpl in *. apply andb_true_iff in Hw as [Hc Hw].
      rewrite (IH Hw), orb_false_r.
      destruct (Ascii.eqb c ","%char) eqn:E; [|reflexivity].
      apply Ascii.eqb_eq in E. subst c. discriminate. }
    now rewrite (split_app_plain ","%char value w Hc), map_trim_appendLast.
Qed.

Lemma parseLabels_trailing_witness :
  allWhiteSpace "  " = true
  /\ CommandPreview.parseLabels ("bug, docs" ++ "  ") = ["bug"; "docs"].
Proof.
  split; [reflexivity|].
  rewrite (proj2 (parseLabels_trailing "bug, docs" "  ") eq_refl).
  reflexivity.
Defined.

(** In the edit form of a component whose labels are well formed, typing a
    comma at the end of the labels field changes nothing: the field is set
    back to the text it had. *)
Theorem typing_comma_changes_nothing (p : CommandPreview.Preview)
  (He : CommandPreview.isEditing p = true)
  (Hl : forallb wellFormedLabel (labels (CommandPreview.editedIssue p)) = true) :
  CommandPreview.previewStep p
    (CommandPreview.ChangeLabels
       (CommandPreview.labelsText (labels (CommandPreview.editedIssue p)) ++ ","))
  = Some (p, None).
Proof.
  cbn [CommandPreview.previewStep]. rewrite He.
  rewrite parseLabels_comma_end, (parseLabels_of_text _ Hl).
  destruct p as [i c e [? ? ? ? ? ?]]. reflexivity.
Qed.

Lemma typing_comma_changes_nothing_witness :
  CommandPreview.previewStep editingPreview (CommandPreview.ChangeLabels "Bug, question,")
  = Some (editingPreview, None).
Proof.
  apply (typing_comma_changes_nothing editingPreview); reflexivity.
Defined.

End LabelsField.

(** ** Label colours and title prefixes *)

Section LabelColours.

Lemma shownRed_includes (l : string) :
  shownRed l = includes (toLowerCase l) "bug".
Proof.
  unfold shownRed, CommandPreview.getLabelStyle.
  destruct (includes (toLowerCase l) "bug"); [reflexivity|].
  destruct (includes (toLowerCase l) "enhancement"
            || includes (toLowerCase l) "feature"); reflexivity.
Qed.

Lemma shownBlue_includes (l : string) :
  shownBlue l =
  negb (includes (toLowerCase l) "bug")
  && (includes (toLowerCase l) "feature"
      || includes (toLowerCase l) "enhancement").
Proof.
  unfold shownBlue, CommandPreview.getLabelStyle.
  destruct (includes (toLowerCase l) "bug"); [reflexivity|].
  rewrite (orb_comm (includes (toLowerCase l) "feature")).
  destruct (includes (toLowerCase l) "enhancement"
            || includes (toLowerCase l) "feature"); reflexivity.
Qed.

Lemma existsb_red (ls : list string) :
  existsb (fun l => includes l "bug") (map toLowerCase ls)
  = existsb shownRed ls.
Proof.
  induction ls as [|l ls IH]; [reflexivity|].
  simpl. now rewrite IH, shownRed_includes.
Qed.

Lemma existsb_blue (ls : list string) :
  existsb shownRed ls = false ->
  existsb (fun l => includes l "feature" || includes l "enhancement")
          (map toLowerCase ls)
  = existsb shownBlue ls.
Proof.
  induction ls as [|l ls IH]; [reflexivity|].
  simpl. intros H. apply orb_false_iff in H as [Hl Hls].
  rewrite (IH Hls), shownBlue_includes.
  rewrite shownRed_includes in Hl. now rewrite Hl.
Qed.

(** The title prefix follows the colours in which the component shows the
    labels: [[Bug] ] when some label is shown red, otherwise [[Feature] ]
    when some label is shown blue, otherwise none. *)
Theorem prefix_follows_label_colours (i : ParsedIssue) :
  title (processIssue i) =
  trim ((if existsb shownRed (labels i) then "[Bug] "
         else if existsb shownBlue (labels i) then "[Feature] "
         else "") ++ title i).
Proof.
  cbn [processIssue title]. rewrite existsb_red.
  destruct (existsb shownRed (labels i)) eqn:E; [reflexivity|].
  now rewrite (existsb_blue _ E).
Qed.

End LabelColours.

(** ** Updating and removing issues *)

Section Handlers.

Lemma update_map_ids (u : ParsedIssue) (l : list ParsedIssue) :
  map id (map (fun i => if id i =? id u then u else i) l) = map id l.
Proof.
  rewrite map_map. apply map_ext. intros i.
  destruct (id i =? id u) eqn:E; [|reflexivity].
  apply String.eqb_eq in E. now rewrite E.
Qed.

(** With distinct ids, the update touches the one issue with the id. *)
Lemma update_at_position (u x : ParsedIssue) (l : list ParsedIssue) (k : nat) :
  NoDup (map id l) -> nth_error l k = Some x -> id x = id u ->
  map (fun i => if id i =? id u then u else i) l
  = (firstn k l ++ u :: skipn (S k) l)%list.
Proof.
  revert k. induction l as [|a l IH]; intros k Hnd Hk Hid.
  - destruct k; discriminate.
  - inversion Hnd as [|? ? Hnotin Hnd']; subst.
    destruct k as [|k]; simpl in Hk.
    + injection Hk as ->. simpl. rewrite Hid, String.eqb_refl. f_equal.
      rewrite <- (map_id l) at 2. apply map_ext_in. intros i Hi.
      destruct (id i =? id u) eqn:E; [|reflexivity].
      apply String.eqb_eq in E. exfalso. apply Hnotin.
      rewrite Hid, <- E. now apply in_map.
    + simpl. rewrite (IH k Hnd' Hk Hid).
      destruct (id a =? id u) eqn:E; [|reflexivity].
      apply String.eqb_eq in E. exfalso. apply Hnotin.
      rewrite E, <- Hid. apply in_map. eapply nth_error_In; eassumption.
Qed.

Lemma delete_at_position (id0 : string) (x : ParsedIssue) (l : list ParsedIssue) (k : nat) :
  NoDup (map id l) -> nth_error l k = Some x -> id x = id0 ->
  filter (fun i => negb (id i =? id0)) l = (firstn k l ++ skipn (S k) l)%list.
Proof.
  revert k. induction l as [|a l IH]; intros k Hnd Hk Hid.
  - destruct k; discriminate.
  - inversion Hnd as [|? ? Hnotin Hnd']; subst.
    destruct k as [|k]; simpl in Hk.
    + injection Hk as ->. simpl. rewrite String.eqb_refl. simpl.
      apply forallb_filter_id. apply forallb_forall. intros i Hi.
      apply negb_true_iff, String.eqb_neq. intros E. apply Hnotin.
      rewrite <- E. now apply in_map.
    + simpl. rewrite (IH k Hnd' Hk eq_refl).
      destruct (id a =? id x) eqn:E; [|reflexivity].
      apply String.eqb_eq in E. exfalso. apply Hnotin.
      rewrite E. apply in_map. eapply nth_error_In; eassumption.
Qed.

(** [handleUpdateIssue] keeps the ids of the listed issues, in order, and
    the rest of the state; when no listed issue has the id of the update,
    nothing changes; when the ids are distinct, the update takes the place
    of the issue with its id and the other issues stay. *)
Theorem update_keeps_ids (u : ParsedIssue) (st : State) :
  map id (issues (handleUpdateIssue u st)) = map id (issues st)
  /\ status (handleUpdateIssue u st) = status st
  /\ errorMsg (handleUpdateIssue u st) = errorMsg st
  /\ emailContent (handleUpdateIssue u st) = emailContent st
  /\ (existsb (fun i => id i =? id u) (issues st) = false ->
      handleUpdateIssue u st = st)
  /\ (forall k x,
        NoDup (map id (issues st)) ->
        nth_error (issues st) k = Some x -> id x = id u ->
        issues (handleUpdateIssue u st)
        = (firstn k (issues st) ++ u :: skipn (S k) (issues st))%list).
Proof.
  split; [apply update_map_ids|]. repeat (split; [reflexivity|]). split.
  - intros H. destruct st as [e l s m]. unfold handleUpdateIssue, setIssues.
    cbn [issues emailContent status errorMsg] in *. f_equal.
    rewrite <- (map_id l) at 2. apply map_ext_in. intros i Hi.
    destruct (id i =? id u) eqn:E; [|reflexivity].
    assert (existsb (fun i => id i =? id u) l = true)
      by (apply existsb_exists; eauto).
    congruence.
  - intros k x Hnd Hk Hid. now apply update_at_position with (x := x).
Qed.

Lemma update_keeps_ids_witness :
  NoDup (map id (issues listedState))
  /\ nth_error (issues listedState) 2 = Some (processIssue plainIssue)
  /\ issues (handleUpdateIssue plainIssue listedState)
     = [processIssue bugIssue; processIssue featureIssue; plainIssue;
        processIssue blankIssue].
Proof.
  assert (Hnd : NoDup (map id (issues listedState))).
  { simpl. repeat constructor; simpl; intuition discriminate. }
  split; [exact Hnd|]. split; [reflexivity|].
  destruct (update_keeps_ids plainIssue listedState)
    as [_ [_ [_ [_ [_ Hpos]]]]].
  rewrite (Hpos 2 (processIssue plainIssue) Hnd eq_refl eq_refl). reflexivity.
Defined.

(** [handleDeleteIssue] keeps exactly the issues with another id, in their
    order; the status becomes IDLE when at most one issue was listed and
    stays otherwise; when the ids are distinct, the one issue with the id
    is taken out. *)
Theorem delete_removes_id (id0 : string) (st : State) :
  issues (handleDeleteIssue id0 st)
  = filter (fun i => negb (id i =? id0)) (issues st)
  /\ ~ In id0 (map id (issues (handleDeleteIssue id0 st)))
  /\ status (handleDeleteIssue id0 st)
     = (if (List.length (issues st) <=? 1)%nat then IDLE else status st)
  /\ errorMsg (handleDeleteIssue id0 st) = errorMsg st
  /\ emailContent (handleDeleteIssue id0 st) = emailContent st
  /\ (forall k x,
        NoDup (map id (issues st)) ->
        nth_error (issues st) k = Some x -> id x = id0 ->
        issues (handleDeleteIssue id0 st)
        = (firstn k (issues st) ++ skipn (S k) (issues st))%list
        /\ S (List.length (issues (handleDeleteIssue id0 st)))
           = List.length (issues st)).
Proof.
  assert (E : issues (handleDeleteIssue id0 st)
              = filter (fun i => negb (id i =? id0)) (issues st)).
  { unfold handleDeleteIssue.
    destruct (List.length (issues st) <=? 1)%nat; reflexivity. }
  split; [exact E|]. split; [|split; [|split; [|split]]].
  - rewrite E. intros Hin. apply in_map_iff in Hin as [i [Hid Hi]].
    apply filter_In in Hi as [_ Hi]. apply negb_true_iff, String.eqb_neq in Hi.
    contradiction.
  - unfold handleDeleteIssue.
    destruct (List.length (issues st) <=? 1)%nat; reflexivity.
  - unfold handleDeleteIssue.
    destruct (List.length (issues st) <=? 1)%nat; reflexivity.
  - unfold handleDeleteIssue.
    destruct (List.length (issues st) <=? 1)%nat; reflexivity.
  - intros k x Hnd Hk Hid. rewrite E.
    rewrite (delete_at_position id0 x _ k Hnd Hk Hid). split; [reflexivity|].
    assert (Hlt : k < List.length (issues st))
      by (apply nth_error_Some; congruence).
    rewrite length_app, length_firstn, length_skipn. lia.
Qed.

Lemma delete_removes_id_witness :
  NoDup (map id (issues listedState))
  /\ nth_error (issues listedState) 1 = Some (processIssue featureIssue)
  /\ issues (handleDeleteIssue "id-4" listedState)
     = [processIssue bugIssue; processIssue plainIssue; processIssue blankIssue].
Proof.
  assert (Hnd : NoDup (map id (issues listedState))).
  { simpl. repeat constructor; simpl; intuition discriminate. }
  split; [exact Hnd|]. split; [reflexivity|].
  destruct (delete_removes_id "id-4" listedState)
    as [_ [_ [_ [_ [_ Hpos]]]]].
  destruct (Hpos 1 (processIssue featureIssue) Hnd eq_refl eq_refl) as [E _].
  rewrite E. reflexivity.
Defined.

End Handlers.

(** ** A run of handleGenerate *)

Section Runs.

Variable api : string -> string -> ApiOutcome.

(** A run on a form that is not blank replaces the listed issues: the new
    list holds the processed issues of the response, or nothing when the
    call fails or returns no issue; no issue listed before is kept.  The
    form fields stay, and the run does not end in status ANALYZING. *)
Theorem run_replaces_issues (st : State) (Hn : ~ blankInput st) :
  issues (handleGenerate api st)
  = match api (subject (emailContent st)) (emailBody (emailContent st)) with
    | Resolved rawIssues => processParsedIssues rawIssues
    | Rejected => []
    end
  /\ emailContent (handleGenerate api st) = emailContent st
  /\ status (handleGenerate api st) <> ANALYZING
  /\ (status (handleGenerate api st) = COMPLETE
      <-> issues (handleGenerate api st) <> []).
Proof.
  unfold handleGenerate. rewrite (handleGenerate_begin_filled st Hn).
  destruct (api _ _) as [raw|]; cbn.
  - destruct raw as [|i raw]; cbn; repeat split;
      try discriminate; try reflexivity; intros H; try contradiction;
      exfalso; apply H; reflexivity.
  - repeat split; try discriminate; intros H; try discriminate;
      exfalso; apply H; reflexivity.
Qed.

End Runs.

Lemma run_replaces_issues_witness :
  ~ blankInput listedState
  /\ issues (handleGenerate apiFails listedState) = [].
Proof.
  assert (Hn : ~ blankInput listedState) by (intros [H _]; discriminate).
  split; [exact Hn|].
  destruct (run_replaces_issues apiFails listedState Hn) as [E _]. exact E.
Defined.

(** ** What the output side shows in reachable states *)

Section Panels.

Lemma listedWhenComplete_initial : listedWhenComplete initialSystem.
Proof.
  split; [apply singleRequest_initial|]. split.
  - intros H. now contradiction H.
  - discriminate.
Qed.

Lemma filter_single_listed (id0 : string) (l : list ParsedIssue) :
  (List.length l <=? 1)%nat = true ->
  existsb (fun i => id i =? id0) l = true ->
  filter (fun i => negb (id i =? id0)) l = [].
Proof.
  destruct l as [|a [|b l]]; try discriminate.
  simpl. rewrite orb_false_r. intros _ ->. reflexivity.
Qed.

Lemma listedWhenComplete_step (sys sys' : System) (ev : Event) :
  listedWhenComplete sys -> step sys ev = Some sys' -> listedWhenComplete sys'.
Proof.
  intros [Hs [Hl He]] Hstep.
  split; [eapply singleRequest_step; eassumption|].
  destruct sys as [st fl]. cbn [ui inflight] in *.
  destruct ev; cbn [step ui inflight] in Hstep.
  - injection Hstep as <-. split; assumption.
  - injection Hstep as <-. split; assumption.
  - destruct (generateDisabled st); [discriminate|].
    unfold handleGenerate_begin in Hstep.
    destruct (negb (truthy (trim (subject (emailContent st))))
              && negb (truthy (trim (emailBody (emailContent st)))));
      injection Hstep as <-; cbn; split; try assumption.
    + intros H. now contradiction H.
    + discriminate.
  - destruct (errorPanelShown st) eqn:Hp; [|discriminate].
    injection Hstep as <-. cbn. split; [|discriminate].
    intros H. specialize (Hl H). unfold errorPanelShown in Hp.
    rewrite Hl in Hp. discriminate.
  - destruct (resultsShown st); [|discriminate].
    injection Hstep as <-. cbn. split; [|assumption].
    intros H. now contradiction H.
  - destruct (resultsShown st); [|discriminate].
    injection Hstep as <-. split; assumption.
  - destruct (resultsShown st) eqn:Hr; [|discriminate].
    injection Hstep as <-. cbn. split; [|assumption].
    intros _. apply Hl. now apply resultsShown_listed.
  - destruct (existsb (fun i => id i =? id0) (issues st)) eqn:Hx; [|discriminate].
    injection Hstep as <-. cbn [ui].
    pose proof (Hl (existsb_listed _ _ Hx)) as Hc.
    unfold handleDeleteIssue.
    destruct (List.length (issues st) <=? 1)%nat eqn:Hlen; cbn.
    + rewrite (filter_single_listed _ _ Hlen Hx). split; [|discriminate].
      intros H. now contradiction H.
    + split; [intros _; exact Hc | rewrite Hc; discriminate].
  - destruct fl as [|r rest]; [discriminate|].
    injection Hstep as <-. cbn [ui].
    unfold singleRequest in Hs. cbn [ui inflight] in Hs.
    destruct (status st) eqn:Es; try discriminate.
    destruct Hs as [Hempty _].
    unfold handleGenerate_settle.
    destruct o as [raw|]; [destruct (List.length raw =? 0)%nat|]; cbn.
    + split; [intros H; contradiction | discriminate].
    + split; [reflexivity | discriminate].
    + split; [intros H; contradiction | reflexivity].
Qed.

Lemma listedWhenComplete_run (evs : list Event) (sys sys' : System) :
  listedWhenComplete sys -> run sys evs = Some sys' -> listedWhenComplete sys'.
Proof.
  revert sys. induction evs as [|ev evs IH]; intros sys Hinv Hrun.
  - injection Hrun as <-. exact Hinv.
  - cbn [run] in Hrun. destruct (step sys ev) as [sys1|] eqn:Hs; [|discriminate].
    eapply IH; [|exact Hrun]. eapply listedWhenComplete_step; eassumption.
Qed.

Lemma listedWhenComplete_reachable (sys : System) :
  reachable sys -> listedWhenComplete sys.
Proof.
  intros [evs Hrun].
  eapply listedWhenComplete_run; [apply listedWhenComplete_initial | exact Hrun].
Qed.

(** In every reachable state issues are listed only in status COMPLETE, and
    at most one of the empty-state, error and results panels is rendered;
    none is rendered exactly when no issue is listed and the status is
    ANALYZING or COMPLETE. *)
Theorem panels_exclusive (sys : System) (H : reachable sys) :
  (issues (ui sys) <> [] -> status (ui sys) = COMPLETE)
  /\ panelsShown (ui sys) <= 1
  /\ (panelsShown (ui sys) = 0
      <-> issues (ui sys) = []
          /\ (status (ui sys) = ANALYZING \/ status (ui sys) = COMPLETE)).
Proof.
  destruct (listedWhenComplete_reachable sys H) as [_ [Hl _]].
  split; [exact Hl|].
  unfold panelsShown, emptyStateShown, errorPanelShown, resultsShown.
  destruct (issues (ui sys)) as [|i l] eqn:Ei.
  - destruct (status (ui sys)); cbn; (split; [lia|]);
      (split; [intros Hx; try discriminate; auto
              | intros [_ [Hx|Hx]]; try discriminate; reflexivity]).
  - rewrite (Hl ltac:(discriminate)). cbn. split; [lia|].
    split; [discriminate | intros [Hx _]; discriminate].
Qed.

Lemma panels_exclusive_witness :
  reachable analyzingSystem /\ panelsShown (ui analyzingSystem) = 0.
Proof.
  assert (Hr : reachable analyzingSystem)
    by (exists [EditSubject "Feedback"; ClickGenerate]; reflexivity).
  split; [exact Hr|].
  destruct (panels_exclusive analyzingSystem Hr) as [_ [_ [_ Hz]]].
  apply Hz. split; [reflexivity | left; reflexivity].
Defined.

(** In every reachable state the message the user sees, if any, is the
    message of the failed call, and it is seen exactly in status ERROR; the
    message stored for a response without issues is never seen. *)
Theorem displayed_message_is_failure (sys : System) (H : reachable sys) :
  displayedError (ui sys)
  = (if ProcessingStatus_eqb (status (ui sys)) ERROR
     then Some parseFailed else None)
  /\ displayedError (ui sys) <> Some noRequestsFound.
Proof.
  destruct (listedWhenComplete_reachable sys H) as [_ [_ He]].
  assert (E : displayedError (ui sys)
              = (if ProcessingStatus_eqb (status (ui sys)) ERROR
                 then Some parseFailed else None)).
  { unfold displayedError, errorPanelShown.
    destruct (status (ui sys)); try reflexivity. now apply He. }
  split; [exact E|]. rewrite E.
  destruct (ProcessingStatus_eqb (status (ui sys)) ERROR); discriminate.
Qed.

Lemma displayed_message_is_failure_witness :
  reachable (mkSystem (mkState (mkEmail "Feedback" "") [] IDLE (Some noRequestsFound)) [])
  /\ displayedError (mkState (mkEmail "Feedback" "") [] IDLE (Some noRequestsFound))
     = None.
Proof.
  assert (Hr : reachable (mkSystem (mkState (mkEmail "Feedback" "") [] IDLE
                                      (Some noRequestsFound)) []))
    by (exists [EditSubject "Feedback"; ClickGenerate; Settle (Resolved [])];
        reflexivity).
  split; [exact Hr|].
  destruct (displayed_message_is_failure _ Hr) as [E _]. exact E.
Defined.

(** The clear button leaves the output side blank: in every reachable state
    in which it can be clicked the status is COMPLETE and stays so, and
    afterwards no panel is rendered. *)
Theorem clear_leaves_blank (sys sys' : System)
  (H : reachable sys) (Hs : step sys ClickClear = Some sys') :
  issues (ui sys') = []
  /\ status (ui sys') = COMPLETE
  /\ panelsShown (ui sys') = 0.
Proof.
  destruct (listedWhenComplete_reachable sys H) as [_ [Hl _]].
  destruct sys as [st fl]. cbn [step ui] in *.
  destruct (resultsShown st) eqn:Hr; [|discriminate].
  injection Hs as <-. cbn [ui].
  pose proof (Hl (resultsShown_listed _ Hr)) as Hc.
  unfold panelsShown, emptyStateShown, errorPanelShown, resultsShown.
  cbn. rewrite Hc. repeat split.
Qed.

Lemma clear_leaves_blank_witness :
  reachable listedSystem
  /\ exists sys', step listedSystem ClickClear = Some sys'
                  /\ panelsShown (ui sys') = 0.
Proof.
  assert (Hr : reachable listedSystem)
    by (exists [EditSubject "Feedback"; ClickGenerate; Settle (Resolved rawIssues)];
        reflexivity).
  split; [exact Hr|].
  eexists. split; [reflexivity|].
  eapply (clear_leaves_blank listedSystem _ Hr). reflexivity.
Defined.

(** Removing the only listed issue brings back the empty-state panel: the
    list is empty and the status IDLE. *)
Theorem removing_last_shows_empty_state (sys : System) (i : ParsedIssue)
  (Hi : issues (ui sys) = [i]) :
  exists sys',
    step sys (ClickRemove (id i)) = Some sys'
    /\ issues (ui sys') = []
    /\ status (ui sys') = IDLE
    /\ emptyStateShown (ui sys') = true
    /\ panelsShown (ui sys') = 1.
Proof.
  destruct sys as [st fl]. cbn [ui] in *.
  eexists. cbn [step ui]. rewrite Hi. cbn [existsb].
  rewrite String.eqb_refl. cbn [orb]. split; [reflexivity|].
  unfold handleDeleteIssue, panelsShown, emptyStateShown, errorPanelShown,
    resultsShown.
  rewrite Hi. cbn. rewrite String.eqb_refl. cbn. repeat split.
Qed.

Lemma removing_last_shows_empty_state_witness :
  issues (ui lastIssueSystem) = [processIssue bugIssue]
  /\ exists sys',
       step lastIssueSystem (ClickRemove "id-3") = Some sys'
       /\ emptyStateShown (ui sys') = true.
Proof.
  split; [reflexivity|].
  destruct (removing_last_shows_empty_state lastIssueSystem
              (processIssue bugIssue) eq_refl) as [sys' [Hs [_ [_ [He _]]]]].
  exists sys'. split; [exact Hs | exact He].
Defined.

End Panels.

(** ** The preview component *)

Section Component.

Lemma sameIdentity_refl (i : ParsedIssue) : sameIdentity i i.
Proof. repeat split. Qed.

(** One event keeps the identity of the edited issue, and its effect, if
    any, is for the issue the component shows. *)
Lemma previewStep_identity (p p' : CommandPreview.Preview)
  (ev : CommandPreview.PreviewEvent) (eff : option CommandPreview.Effect) :
  sameIdentity (CommandPreview.editedIssue p) (CommandPreview.issue p) ->
  CommandPreview.previewStep p ev = Some (p', eff) ->
  sameIdentity (CommandPreview.editedIssue p') (CommandPreview.issue p')
  /\ (forall x, eff = Some x -> effectFor (CommandPreview.issue p) x).
Proof.
  intros Hinv Hstep.
  destruct ev; cbn [CommandPreview.previewStep] in Hstep;
    try (destruct (CommandPreview.isEditing p); [|discriminate]);
    try (destruct (CommandPreview.isEditing p); [discriminate|]);
    injection Hstep as <- <-; cbn;
    (split; [try exact Hinv; try apply sameIdentity_refl
            | intros x Hx; try discriminate; injection Hx as <-; cbn; auto]).
Qed.

Lemma previewRun_identity (evs : list CommandPreview.PreviewEvent)
  (p p' : CommandPreview.Preview) (effs : list CommandPreview.Effect) :
  sameIdentity (CommandPreview.editedIssue p) (CommandPreview.issue p) ->
  CommandPreview.previewRun p evs = Some (p', effs) ->
  sameIdentity (CommandPreview.editedIssue p') (CommandPreview.issue p').
Proof.
  revert p effs. induction evs as [|ev evs IH]; intros p effs Hinv Hrun.
  - injection Hrun as <- _. exact Hinv.
  - cbn [CommandPreview.previewRun] in Hrun.
    destruct (CommandPreview.previewStep p ev) as [[p1 eff]|] eqn:Hs; [|discriminate].
    destruct (CommandPreview.previewRun p1 evs) as [[p2 effs2]|] eqn:Hr; [|discriminate].
    injection Hrun as <- _.
    eapply IH; [|exact Hr].
    eapply previewStep_identity; eassumption.
Qed.

(** Whatever happens to a mounted component, its edited issue keeps the
    id, the original context and the sender of the issue it shows; so what
    it hands to [onUpdate] has the id of that issue, and what it hands to
    [onDelete] is that id. *)
Theorem preview_effects_for_issue
  (i : ParsedIssue) (evs : list CommandPreview.PreviewEvent)
  (p p' : CommandPreview.Preview) (effs : list CommandPreview.Effect)
  (ev : CommandPreview.PreviewEvent) (x : CommandPreview.Effect)
  (Hrun : CommandPreview.previewRun (CommandPreview.mount i) evs = Some (p, effs))
  (Hstep : CommandPreview.previewStep p ev = Some (p', Some x)) :
  sameIdentity (CommandPreview.editedIssue p) (CommandPreview.issue p)
  /\ effectFor (CommandPreview.issue p) x
  /\ sameIdentity (CommandPreview.editedIssue p') (CommandPreview.issue p').
Proof.
  assert (Hinv : sameIdentity (CommandPreview.editedIssue p) (CommandPreview.issue p)).
  { eapply previewRun_identity; [|exact Hrun]. apply sameIdentity_refl. }
  split; [exact Hinv|].
  destruct (previewStep_identity p p' ev (Some x) Hinv Hstep) as [H1 H2].
  split; [now apply H2 | exact H1].
Qed.

Lemma preview_effects_for_issue_witness :
  CommandPreview.previewRun (CommandPreview.mount bugIssue)
    [CommandPreview.ClickEdit; CommandPreview.ChangeTitle "Crash"]
  = Some (crashPreview, [])
  /\ CommandPreview.previewStep crashPreview CommandPreview.ClickSave
     = Some (CommandPreview.setIsEditing false crashPreview,
             Some (CommandPreview.OnUpdate crashIssue))
  /\ effectFor bugIssue (CommandPreview.OnUpdate crashIssue).
Proof.
  split; [reflexivity|]. split; [reflexivity|].
  exact (proj1 (proj2
    (preview_effects_for_issue bugIssue
       [CommandPreview.ClickEdit; CommandPreview.ChangeTitle "Crash"]
       crashPreview (CommandPreview.setIsEditing false crashPreview) []
       CommandPreview.ClickSave (CommandPreview.OnUpdate crashIssue)
       eq_refl eq_refl))).
Defined.

(** Cancel does not take the edits back: after a change of the title and a
    click on cancel the component has left the edit form, its issue is the
    one it had, and the command it shows and copies is the command of the
    changed title. *)
Theorem cancel_keeps_edits (p : CommandPreview.Preview) (v : string)
  (He : CommandPreview.isEditing p = true) :
  exists p',
    CommandPreview.previewRun p
      [CommandPreview.ChangeTitle v; CommandPreview.ClickCancel] = Some (p', [])
    /\ CommandPreview.isEditing p' = false
    /\ CommandPreview.issue p' = CommandPreview.issue p
    /\ title (CommandPreview.editedIssue p') = v
    /\ body (CommandPreview.editedIssue p') = body (CommandPreview.editedIssue p)
    /\ labels (CommandPreview.editedIssue p') = labels (CommandPreview.editedIssue p)
    /\ CommandPreview.previewStep p' CommandPreview.ClickCopy
       = Some (CommandPreview.setCopied true p',
               Some (CommandPreview.ClipboardWrite
                       (commandForm
                          (replaceAll dquote (String backslash DQ) v)
                          (replaceAll backtick "\`"
                             (replaceAll dquote (String backslash DQ)
                                (body (CommandPreview.editedIssue p))))
                          (labels (CommandPreview.editedIssue p))))).
Proof.
  destruct p as [i c e ed]. cbn in He. subst e.
  eexists. split; [reflexivity|].
  repeat (split; [reflexivity|]).
  cbn [CommandPreview.previewStep CommandPreview.isEditing
       CommandPreview.setIsEditing CommandPreview.setEditedIssue
       CommandPreview.editedIssue].
  now rewrite generateCommand_form.
Qed.

Lemma cancel_keeps_edits_witness :
  exists p',
    CommandPreview.previewRun editingPreview
      [CommandPreview.ChangeTitle "Crash"; CommandPreview.ClickCancel]
    = Some (p', [])
    /\ title (CommandPreview.issue p') = "Crash on save"
    /\ title (CommandPreview.editedIssue p') = "Crash".
Proof.
  destruct (cancel_keeps_edits editingPreview "Crash" eq_refl)
    as [p' [Hr [_ [Hi [Ht _]]]]].
  exists p'. split; [exact Hr|]. split; [now rewrite Hi | exact Ht].
Defined.

(** Save and the parent together: when the ids of the listed issues are
    distinct and the component shows the issue at position [k], saving puts
    the edited issue at position [k], leaves the other issues and all ids as
    they were, and ends the edit form. *)
Theorem save_replaces_shown_issue
  (p : CommandPreview.Preview) (st : State) (k : nat)
  (He : CommandPreview.isEditing p = true)
  (Hid : sameIdentity (CommandPreview.editedIssue p) (CommandPreview.issue p))
  (Hnd : NoDup (map id (issues st)))
  (Hk : nth_error (issues st) k = Some (CommandPreview.issue p)) :
  exists p' u,
    CommandPreview.previewStep p CommandPreview.ClickSave
      = Some (p', Some (CommandPreview.OnUpdate u))
    /\ CommandPreview.isEditing p' = false
    /\ u = CommandPreview.editedIssue p
    /\ issues (handleUpdateIssue u st)
       = (firstn k (issues st) ++ u :: skipn (S k) (issues st))%list
    /\ map id (issues (handleUpdateIssue u st)) = map id (issues st).
Proof.
  exists (CommandPreview.setIsEditing false p), (CommandPreview.editedIssue p).
  cbn [CommandPreview.previewStep]. rewrite He.
  split; [reflexivity|]. split; [reflexivity|]. split; [reflexivity|].
  split; [|apply update_map_ids].
  destruct Hid as [Hid _].
  apply update_at_position with (x := CommandPreview.issue p); auto.
Qed.

Lemma save_replaces_shown_issue_witness :
  exists u,
    CommandPreview.previewStep
      (CommandPreview.mkPreview (processIssue plainIssue) false true plainIssue)
      CommandPreview.ClickSave
    = Some (CommandPreview.mkPreview (processIssue plainIssue) false false plainIssue,
            Some (CommandPreview.OnUpdate u))
    /\ issues (handleUpdateIssue u listedState)
       = [processIssue bugIssue; processIssue featureIssue; plainIssue;
          processIssue blankIssue].
Proof.
  assert (Hnd : NoDup (map id (issues listedState))).
  { simpl. repeat constructor; simpl; intuition discriminate. }
  destruct (save_replaces_shown_issue
              (CommandPreview.mkPreview (processIssue plainIssue) false true plainIssue)
              listedState 2 eq_refl (conj eq_refl (conj eq_refl eq_refl)) Hnd eq_refl)
    as [p' [u [Hs [_ [Hu [Hi _]]]]]].
  exists u. split.
  - rewrite Hs. cbn in Hs. injection Hs as <- <-. reflexivity.
  - rewrite Hi, Hu. reflexivity.
Defined.

End Component.

(** ** The service call *)

Section ServiceCall.

Variable apiKey : option string.
Variable generateContent : string -> GeminiService.Response.
Variable parseJson : string -> option (list ParsedIssue).
Variable randomUUID : nat -> string.

Lemma NoDup_map_injective {A B} (f : A -> B) (l : list A) :
  (forall a b, f a = f b -> a = b) -> NoDup l -> NoDup (map f l).
Proof.
  intros Hinj Hnd. induction Hnd as [|a l Hnotin Hnd IH]; simpl; constructor.
  - intros Hin. apply in_map_iff in Hin as [b [E Hb]].
    apply Hinj in E. subst b. contradiction.
  - exact IH.
Qed.

Lemma assignIds_ids (k : nat) (raw : list ParsedIssue) :
  map id (GeminiService.assignIds randomUUID k raw)
  = map randomUUID (seq k (List.length raw)).
Proof.
  revert k. induction raw as [|i raw IH]; intros k; [reflexivity|].
  simpl. now rewrite IH.
Qed.

Lemma assignIds_fields (k : nat) (raw : list ParsedIssue) :
  List.length (GeminiService.assignIds randomUUID k raw) = List.length raw
  /\ map title (GeminiService.assignIds randomUUID k raw) = map title raw
  /\ map body (GeminiService.assignIds randomUUID k raw) = map body raw
  /\ map labels (GeminiService.assignIds randomUUID k raw) = map labels raw
  /\ map originalContext (GeminiService.assignIds randomUUID k raw)
     = map originalContext raw
  /\ map sender (GeminiService.assignIds randomUUID k raw) = map sender raw.
Proof.
  revert k. induction raw as [|i raw IH]; intros k; [repeat split|].
  destruct (IH (S k)) as [H1 [H2 [H3 [H4 [H5 H6]]]]].
  simpl. rewrite H1, H2, H3, H4, H5, H6. repeat split.
Qed.

(** The issues that [parseEmailToIssues] returns carry the UUIDs drawn for
    them, in order, whatever ids the response text held; the ids are
    distinct when the UUIDs are; and the other properties of the issues are
    those of the parsed response. *)
Theorem returned_ids_are_fresh
  (drawn : nat) (subj msg : string) (l : list ParsedIssue)
  (H : GeminiService.parseEmailToIssues apiKey generateContent parseJson
         randomUUID drawn subj msg = Resolved l) :
  map id l = map randomUUID (seq drawn (List.length l))
  /\ ((forall a b, randomUUID a = randomUUID b -> a = b) -> NoDup (map id l))
  /\ (l = []
      \/ exists t raw,
           generateContent (GeminiService.promptText subj msg)
             = GeminiService.Returns (Some t)
           /\ parseJson t = Some raw
           /\ map title l = map title raw
           /\ map body l = map body raw
           /\ map labels l = map labels raw
           /\ map originalContext l = map originalContext raw
           /\ map sender l = map sender raw).
Proof.
  unfold GeminiService.parseEmailToIssues in H.
  destruct (negb (truthyOpt apiKey)); [discriminate|].
  destruct (generateContent _) as [|[t|]] eqn:Eg; try discriminate.
  - destruct (negb (truthy t)).
    + injection H as <-. repeat split; [constructor | now left].
    + destruct (parseJson t) as [raw|] eqn:Ep; [|discriminate].
      injection H as <-.
      destruct (assignIds_fields drawn raw) as [Hlen [H2 [H3 [H4 [H5 H6]]]]].
      rewrite assignIds_ids, Hlen. split; [reflexivity|]. split.
      * intros Hinj. apply NoDup_map_injective; [exact Hinj|].
        apply seq_NoDup.
      * right. exists t, raw. repeat split; assumption.
  - injection H as <-. repeat split; [constructor | now left].
Qed.

(** Without an API key every run on a form that is not blank ends in status
    ERROR with the failure message on display and no issue listed; the
    service is not consulted. *)
Theorem missing_key_shows_failure (drawn : nat) (st : State)
  (Hk : truthyOpt apiKey = false) (Hn : ~ blankInput st) :
  status (handleGenerate
            (GeminiService.parseEmailToIssues apiKey generateContent parseJson
               randomUUID drawn) st) = ERROR
  /\ displayedError
       (handleGenerate
          (GeminiService.parseEmailToIssues apiKey generateContent parseJson
             randomUUID drawn) st) = Some parseFailed
  /\ issues (handleGenerate
               (GeminiService.parseEmailToIssues apiKey generateContent parseJson
                  randomUUID drawn) st) = [].
Proof.
  unfold handleGenerate. rewrite (handleGenerate_begin_filled st Hn).
  unfold GeminiService.parseEmailToIssues. rewrite Hk. repeat split.
Qed.

(** The run by the reply, on a form that is not blank.  It ends in status
    ERROR with the failure message on display when the API key is missing,
    the service call throws, or the response text is not empty and parsing
    it throws.  With a key, it ends in status IDLE with no issue and no
    message on display when the response text is undefined or empty or
    parses to the empty array; and when the text parses to issues with the
    properties of the response schema, at least one, it ends in status
    COMPLETE and lists the processed issues under the UUIDs drawn. *)
Theorem run_outcome_by_reply (drawn : nat) (st : State) (Hn : ~ blankInput st) :
  ((truthyOpt apiKey = false
    \/ generateContent
         (GeminiService.promptText (subject (emailContent st))
            (emailBody (emailContent st))) = GeminiService.Throws
    \/ exists t,
         generateContent
           (GeminiService.promptText (subject (emailContent st))
              (emailBody (emailContent st)))
           = GeminiService.Returns (Some t)
         /\ t <> "" /\ parseJson t = None) ->
   status (handleGenerate
             (GeminiService.parseEmailToIssues apiKey generateContent parseJson
                randomUUID drawn) st) = ERROR
   /\ displayedError
        (handleGenerate
           (GeminiService.parseEmailToIssues apiKey generateContent parseJson
              randomUUID drawn) st) = Some parseFailed
   /\ issues (handleGenerate
                (GeminiService.parseEmailToIssues apiKey generateContent parseJson
                   randomUUID drawn) st) = [])
  /\ (truthyOpt apiKey = true ->
      (generateContent
         (GeminiService.promptText (subject (emailContent st))
            (emailBody (emailContent st))) = GeminiService.Returns None
       \/ exists t,
            generateContent
              (GeminiService.promptText (subject (emailContent st))
                 (emailBody (emailContent st)))
              = GeminiService.Returns (Some t)
            /\ (t = "" \/ parseJson t = Some [])) ->
      status (handleGenerate
                (GeminiService.parseEmailToIssues apiKey generateContent parseJson
                   randomUUID drawn) st) = IDLE
      /\ displayedError
           (handleGenerate
              (GeminiService.parseEmailToIssues apiKey generateContent parseJson
                 randomUUID drawn) st) = None
      /\ issues (handleGenerate
                   (GeminiService.parseEmailToIssues apiKey generateContent parseJson
                      randomUUID drawn) st) = [])
  /\ (truthyOpt apiKey = true ->
      forall t raw,
        generateContent
          (GeminiService.promptText (subject (emailContent st))
             (emailBody (emailContent st)))
          = GeminiService.Returns (Some t) ->
        t <> "" -> parseJson t = Some raw -> raw <> [] ->
        status (handleGenerate
                  (GeminiService.parseEmailToIssues apiKey generateContent parseJson
                     randomUUID drawn) st) = COMPLETE
        /\ displayedError
             (handleGenerate
                (GeminiService.parseEmailToIssues apiKey generateContent parseJson
                   randomUUID drawn) st) = None
        /\ issues (handleGenerate
                     (GeminiService.parseEmailToIssues apiKey generateContent
                        parseJson randomUUID drawn) st)
           = processParsedIssues (GeminiService.assignIds randomUUID drawn raw)
        /\ map id (issues (handleGenerate
                             (GeminiService.parseEmailToIssues apiKey generateContent
                                parseJson randomUUID drawn) st))
           = map randomUUID (seq drawn (List.length raw))).
Proof.
  unfold handleGenerate. rewrite (handleGenerate_begin_filled st Hn).
  unfold GeminiService.parseEmailToIssues.
  split; [|split].
  - intros [Hk|[Hg|[t [Hg [Ht Hp]]]]].
    + rewrite Hk. repeat split.
    + destruct (truthyOpt apiKey); [|repeat split].
      cbn [negb]. rewrite Hg. repeat split.
    + destruct (truthyOpt apiKey); [|repeat split].
      cbn [negb]. rewrite Hg.
      destruct t as [|c t]; [contradiction|].
      cbn [truthy negb]. rewrite Hp. repeat split.
  - intros Hk [Hg|[t [Hg [Ht|Hp]]]]; rewrite Hk; cbn [negb]; rewrite Hg.
    + repeat split.
    + subst t. repeat split.
    + destruct t as [|c t]; [repeat split|].
      cbn [truthy negb]. rewrite Hp. repeat split.
  - intros Hk t raw Hg Ht Hp Hraw. rewrite Hk. cbn [negb]. rewrite Hg.
    destruct t as [|c t]; [contradiction|].
    cbn [truthy negb]. rewrite Hp.
    destruct raw as [|i raw]; [contradiction|].
    cbn [handleGenerate_settle GeminiService.assignIds List.length Nat.eqb].
    split; [reflexivity|]. split; [reflexivity|]. split; [reflexivity|].
    cbn [issues setStatus setIssues]. unfold processParsedIssues.
    rewrite map_map.
    change (map (fun x => id (processIssue x)) ?l) with (map id l).
    apply (assignIds_ids drawn (i :: raw)).
Qed.

End ServiceCall.

Lemma sampleUUID_injective (a b : nat) : sampleUUID a = sampleUUID b -> a = b.
Proof.
  revert b. induction a as [|a IH]; intros [|b] H; try discriminate.
  - reflexivity.
  - injection H as H. now rewrite (IH b H).
Qed.

Lemma returned_ids_are_fresh_witness :
  GeminiService.parseEmailToIssues (Some "key") sampleService sampleParse
    sampleUUID 0 "Feedback" "" 
  = Resolved (GeminiService.assignIds sampleUUID 0 rawIssues)
  /\ NoDup (map id (GeminiService.assignIds sampleUUID 0 rawIssues)).
Proof.
  split; [reflexivity|].
  destruct (returned_ids_are_fresh (Some "key") sampleService sampleParse
              sampleUUID 0 "Feedback" ""
              (GeminiService.assignIds sampleUUID 0 rawIssues) eq_refl)
    as [_ [Hnd _]].
  apply Hnd. exact sampleUUID_injective.
Defined.

Lemma missing_key_shows_failure_witness :
  truthyOpt (Some "") = false
  /\ ~ blankInput filledState
  /\ displayedError
       (handleGenerate
          (GeminiService.parseEmailToIssues (Some "") sampleService sampleParse
             sampleUUID 0) filledState) = Some parseFailed.
Proof.
  assert (Hn : ~ blankInput filledState) by (intros [H _]; discriminate).
  split; [reflexivity|]. split; [exact Hn|].
  destruct (missing_key_shows_failure (Some "") sampleService sampleParse
              sampleUUID 0 filledState eq_refl Hn) as [_ [E _]].
  exact E.
Defined.

Lemma run_outcome_by_reply_witness :
  ~ blankInput filledState
  /\ truthyOpt (Some "key") = true
  /\ sampleParse "[...]" = Some rawIssues
  /\ status (handleGenerate
               (GeminiService.parseEmailToIssues (Some "key") sampleService
                  sampleParse sampleUUID 0) filledState) = COMPLETE
  /\ status (handleGenerate
               (GeminiService.parseEmailToIssues None sampleService
                  sampleParse sampleUUID 0) filledState) = ERROR.
Proof.
  assert (Hn : ~ blankInput filledState) by (intros [H _]; discriminate).
  split; [exact Hn|]. split; [reflexivity|]. split; [reflexivity|]. split.
  - destruct (run_outcome_by_reply (Some "key") sampleService sampleParse
                sampleUUID 0 filledState Hn) as [_ [_ Hc]].
    destruct (Hc eq_refl "[...]" rawIssues eq_refl) as [E _];
      [discriminate | reflexivity | discriminate | exact E].
  - destruct (run_outcome_by_reply None sampleService sampleParse
                sampleUUID 0 filledState Hn) as [He _].
    destruct He as [E _]; [left; reflexivity | exact E].
Defined.
